(** * DoodleMania: the room lobby, the round timer, the canvas and the local game

    A shallow embedding of the state-carrying parts of
    [src/App.multiplayer.tsx], [src/screens/MultiplayerGameScreen.tsx],
    [src/screens/LobbyScreen.tsx] and the local game of [App.tsx].

    React state ([useState]) is passed explicitly: a handler is a function
    from the state it closes over to the state after its setters have been
    committed, paired with the calls it makes on its callback props.  One
    handler runs to completion and its updates are rendered before the next
    event is delivered, so the values a handler closes over are the current
    ones.  Times are integer milliseconds ([Date.now()], [getTime()]). *)

From Stdlib Require Import ZArith List String Ascii Bool Lia DecimalString.
Import ListNotations.
Open Scope Z_scope.

(** ** Data model *)

(** Modelled from the spec: [types/multiplayer] is not among the sources;
    the records below carry the fields of section 3 that the screens read. *)
Inductive RoomStatus := waiting | playing | ended.

Inductive TeamId := team1 | team2.

Record RoomSettings := {
  timer_seconds : Z;
  allow_tag_team : bool
}.

Record Room := {
  code : string;
  status : RoomStatus;
  settings : RoomSettings;
  current_round : Z;
  current_word : option string;
  drawing_team : option TeamId;
  round_start_time : option Z   (* parsed by [new Date(..).getTime()] *)
}.

Record Player := {
  id : string;
  name : string;
  team : option TeamId;
  is_host : bool;
  is_ready : bool;
  is_drawing : bool;
  score : Z
}.

Definition RoomStatus_eqb (a b : RoomStatus) : bool :=
  match a, b with
  | waiting, waiting | playing, playing | ended, ended => true
  | _, _ => false
  end.

(** [currentPlayer?.is_host], [currentPlayer?.is_drawing]: optional chaining
    yields [undefined], which is falsy, when there is no current player. *)
Definition opt_flag (f : Player -> bool) (cp : option Player) : bool :=
  match cp with
  | Some p => f p
  | None => false
  end.

(** ** The round timer of [MultiplayerApp] *)
Module Timer.

(** The calls the timer makes on the [useMultiplayer] hook. *)
Inductive HookCall := endRound.

Record TimerState := {
  timeRemaining : Z;
  timerRef : bool          (* an interval is installed *)
}.

(** Lines 73-80: the value given to [setTimeRemaining] when the effect
    runs at wall-clock time [now].  [Z./] rounds down like [Math.floor];
    on millisecond counts the float quotient and the exact one have the
    same floor. *)
Definition remaining (room : Room) (now : Z) : Z :=
  match round_start_time room with
  | Some startTime =>
      let elapsed := (now - startTime) / 1000 in
      Z.max 0 (timer_seconds (settings room) - elapsed)
  | None => timer_seconds (settings room)
  end.

(** The effect body, run when [status], [round_start_time],
    [current_round] or [is_host] changes (the cleanup of the previous run
    has removed the old interval). *)
Definition timer_effect (room : option Room) (now : Z) (st : TimerState)
  : TimerState :=
  match room with
  | Some r =>
      if RoomStatus_eqb (status r) playing
      then {| timeRemaining := remaining r now; timerRef := true |}
      else {| timeRemaining := timeRemaining st; timerRef := false |}
  | None => {| timeRemaining := timeRemaining st; timerRef := false |}
  end.

(** The updater passed to [setTimeRemaining] by the interval callback,
    with the hook calls it makes. *)
Definition tick_update (room : Room) (currentPlayer : option Player)
    (prev : Z) : Z * list HookCall :=
  if prev <=? 1
  then (timer_seconds (settings room),
        if opt_flag is_host currentPlayer then [endRound] else [])
  else (prev - 1, []).

(** One firing of the interval; nothing fires once it is cleared. *)
Definition interval_tick (room : Room) (currentPlayer : option Player)
    (st : TimerState) : TimerState * list HookCall :=
  if timerRef st
  then let '(v, calls) := tick_update room currentPlayer (timeRemaining st) in
       ({| timeRemaining := v; timerRef := true |}, calls)
  else (st, []).

(** [n] firings in a row, with the calls in the order they were made. *)
Fixpoint run_ticks (n : nat) (room : Room) (currentPlayer : option Player)
    (st : TimerState) : TimerState * list HookCall :=
  match n with
  | O => (st, [])
  | S k =>
      let '(st1, c1) := interval_tick room currentPlayer st in
      let '(st2, c2) := run_ticks k room currentPlayer st1 in
      (st2, c1 ++ c2)
  end.

(** What a client does from the moment the effect runs: install the
    timer, then let the interval fire [n] times. *)
Definition client_run (room : Room) (currentPlayer : option Player)
    (now : Z) (n : nat) (st : TimerState) : TimerState * list HookCall :=
  run_ticks n room currentPlayer (timer_effect (Some room) now st).

End Timer.

(** ** What [useMultiplayer] exposes to the screens *)

(** Modelled from the spec: the error kinds of section 7; the hook's
    [error] slot holds the latest one for display. *)
Inductive ErrorKind :=
  ConfigurationMissing | NotFound | PreconditionFailed | TransportError.

Record Store := {
  room : option Room;
  players : list Player;
  currentPlayer : option Player;
  error : option ErrorKind
}.

(** [type Screen] of [MultiplayerApp]. *)
Inductive Screen := home | create | join | lobby | game.

Record Client := {
  screen : Screen;
  store : Store
}.

Definition TeamId_eqb (a b : TeamId) : bool :=
  match a, b with
  | team1, team1 | team2, team2 => true
  | _, _ => false
  end.

(** [p.team === t] for a team number [t]. *)
Definition on_team (t : TeamId) (p : Player) : bool :=
  match team p with
  | Some t' => TeamId_eqb t' t
  | None => false
  end.

(** ** The lobby *)
Module Lobby.

Definition team1Players (ps : list Player) : list Player :=
  filter (on_team team1) ps.

Definition team2Players (ps : list Player) : list Player :=
  filter (on_team team2) ps.

Definition unassignedPlayers (ps : list Player) : list Player :=
  filter (fun p => match team p with None => true | Some _ => false end) ps.

Definition allReady (ps : list Player) : bool :=
  (2 <=? List.length ps)%nat && forallb is_ready ps.

Definition canStart (cp : option Player) (ps : list Player) : bool :=
  opt_flag is_host cp && allReady ps
  && (1 <=? List.length (team1Players ps))%nat
  && (1 <=? List.length (team2Players ps))%nat.

(** The start button sits inside [currentPlayer?.team ? ... : ...] and
    [currentPlayer?.is_host && ...]: it exists for a host who is on a team. *)
Definition startButton_rendered (cp : option Player) : bool :=
  match cp with
  | Some p =>
      match team p with
      | Some _ => is_host p
      | None => false
      end
  | None => false
  end.

(** [disabled={!canStart}]: a disabled [TouchableOpacity] does not call
    [onPress]. *)
Definition startButton_enabled (s : Store) : bool :=
  startButton_rendered (currentPlayer s) && canStart (currentPlayer s) (players s).

(** [handleStartGame] of [MultiplayerApp]: [startGame(); transitionTo('game')]. *)
Definition handleStartGame (startGame : Store -> Store) (c : Client) : Client :=
  {| screen := game; store := startGame (store c) |}.

(** [handleStartPress]: a press on the start button starts the button's
    animation and hands it [onStartGame] as its completion callback; the
    result says whether a call is pending.  A disabled button does not
    call [onPress], and the button exists on the lobby screen only. *)
Definition handleStartPress (c : Client) : bool :=
  match screen c with
  | lobby => startButton_enabled (store c)
  | _ => false
  end.

(** The end of the animation: a pending [onStartGame] runs, on the client
    as it is by then. *)
Definition animation_end (startGame : Store -> Store) (pending : bool)
    (c : Client) : Client :=
  if pending then handleStartGame startGame c else c.

(** The three conditions on the player list that section 4.3 names. *)
Definition start_preconditions (s : Store) : bool :=
  opt_flag is_host (currentPlayer s)
  && (2 <=? List.length (players s))%nat
  && forallb is_ready (players s)
  && (1 <=? List.length (filter (on_team team1) (players s)))%nat
  && (1 <=? List.length (filter (on_team team2) (players s)))%nat.

Definition set_drawer (drawer : string) (p : Player) : Player :=
  {| id := id p; name := name p; team := team p; is_host := is_host p;
     is_ready := is_ready p; is_drawing := String.eqb (id p) drawer;
     score := score p |}.

(** Modelled from the spec: the [startGame] action of the hook
    ([hooks/useMultiplayer] is not among the sources).  Sections 4.3, 4.4
    and 7: the action validates its preconditions and on failure puts
    [PreconditionFailed] in the error slot without writing; otherwise the
    room becomes [playing], team 1 draws first, one drawer is selected, a
    word is assigned and [round_start_time] is stamped.  The word, the
    drawer and the time stamp come from outside. *)
Definition startGame (word drawer : string) (now : Z) (s : Store) : Store :=
  match room s with
  | None => s
  | Some r =>
      if start_preconditions s
      then {| room := Some {| code := code r; status := playing;
                              settings := settings r;
                              current_round := current_round r;
                              current_word := Some word;
                              drawing_team := Some team1;
                              round_start_time := Some now |};
              players := map (set_drawer drawer) (players s);
              currentPlayer := option_map (set_drawer drawer) (currentPlayer s);
              error := error s |}
      else {| room := room s; players := players s;
              currentPlayer := currentPlayer s;
              error := Some PreconditionFailed |}
  end.

Definition room_status (c : Client) : option RoomStatus :=
  option_map status (room (store c)).

(** The conditions of the transition in words: the action is taken by the
    host, there are at least two players, every player is ready, and each
    team has a member. *)
Definition start_conditions (s : Store) : Prop :=
  (exists h, currentPlayer s = Some h /\ is_host h = true)
  /\ (2 <= List.length (players s))%nat
  /\ (forall p, In p (players s) -> is_ready p = true)
  /\ (exists p, In p (players s) /\ team p = Some team1)
  /\ (exists p, In p (players s) /\ team p = Some team2).

(** The gate in words: the current player is the host and has joined a
    team, there are at least two players, every player is ready, and each
    team has a member. *)
Definition may_start (s : Store) : Prop :=
  (exists h, currentPlayer s = Some h /\ is_host h = true /\ team h <> None)
  /\ (2 <= List.length (players s))%nat
  /\ (forall p, In p (players s) -> is_ready p = true)
  /\ (exists p, In p (players s) /\ team p = Some team1)
  /\ (exists p, In p (players s) /\ team p = Some team2).

End Lobby.

(** ** Chat and guesses *)
Module Chat.

(** A text typed by a user is a sequence of UTF-16 code units. *)
Definition jsstring := list N.

(** The text of a literal whose characters are all below U+0100. *)
Definition units (s : string) : jsstring :=
  map N_of_ascii (list_ascii_of_string s).

(** The code units removed by [String.prototype.trim], white space and
    line terminators: U+0009 to U+000D, U+0020, U+00A0, U+1680, U+2000 to
    U+200A, U+2028, U+2029, U+202F, U+205F, U+3000 and U+FEFF. *)
Definition is_white (u : N) : bool :=
  (((9 <=? u) && (u <=? 13))
   || (u =? 32) || (u =? 160) || (u =? 5760)
   || ((8192 <=? u) && (u <=? 8202))
   || (u =? 8232) || (u =? 8233) || (u =? 8239) || (u =? 8287)
   || (u =? 12288) || (u =? 65279))%N.

Fixpoint trimStart (s : jsstring) : jsstring :=
  match s with
  | [] => []
  | u :: r => if is_white u then trimStart r else s
  end.

Fixpoint trimEnd (s : jsstring) : jsstring :=
  match s with
  | [] => []
  | u :: r =>
      match trimEnd r with
      | [] => if is_white u then [] else [u]
      | r' => u :: r'
      end
  end.

Definition trim (s : jsstring) : jsstring := trimEnd (trimStart s).

Definition is_empty (s : jsstring) : bool :=
  match s with
  | [] => true
  | _ :: _ => false
  end.

Fixpoint units_eqb (a b : jsstring) : bool :=
  match a, b with
  | [], [] => true
  | u :: a', v :: b' => (u =? v)%N && units_eqb a' b'
  | _, _ => false
  end.

(** [isGuessingTeam = myTeam && myTeam !== drawingTeam]; the chat box is
    rendered under [isGuessingTeam && ...]. *)
Definition isGuessingTeam (r : Room) (cp : option Player) : bool :=
  match cp with
  | Some p =>
      match team p, drawing_team r with
      | Some t, Some d => negb (TeamId_eqb t d)
      | Some _, None => true
      | None, _ => false
      end
  | None => false
  end.

(** [handleSendChat]: the new [chatInput] and the texts handed to
    [onSendChat]. *)
Definition handleSendChat (chatInput : jsstring) : jsstring * list jsstring :=
  if is_empty (trim chatInput)
  then (chatInput, [])
  else ([], [trim chatInput]).

(** A press on Send (or the keyboard's send key) in the chat box. *)
Definition submit_chat (r : Room) (cp : option Player) (chatInput : jsstring)
  : jsstring * list jsstring :=
  if isGuessingTeam r cp then handleSendChat chatInput else (chatInput, []).

Record ChatMessage := {
  msg_id : string;
  player_id : string;
  player_name : string;
  text : jsstring;
  is_correct_guess : bool
}.

(** Lower case on the Basic Latin letters, the part of the runtime's case
    table that the examples use. *)
Definition lower_unit (u : N) : N :=
  if ((65 <=? u) && (u <=? 90))%N then (u + 32)%N else u.

(** A case folding agrees with the runtime's on Basic Latin when it takes
    a text of code units below U+0080 to its lower case. *)
Definition folds_basic_latin (caseFold : jsstring -> jsstring) : Prop :=
  forall s, forallb (fun u => (u <? 128)%N) s = true ->
            caseFold s = map lower_unit s.

(** A case folding for the Basic Latin and Latin-1 letters (U+00C0 to
    U+00DE but the multiplication sign), unit by unit. *)
Definition fold_latin1 (s : jsstring) : jsstring :=
  map (fun u =>
         if (((65 <=? u) && (u <=? 90))
             || ((192 <=? u) && (u <=? 222) && negb (u =? 215)))%N
         then (u + 32)%N else u) s.

Section WithCaseFold.

(** The case folding of the runtime; its table is the runtime's, not the
    repository's. *)
Variable caseFold : jsstring -> jsstring.

(** Modelled from the spec: the matching of a chat text against the active
    word, done by the hook's chat relay ([hooks/useMultiplayer] is not among
    the sources).  Section 8: trimmed, case-folded text against trimmed,
    case-folded word. *)
Definition matches_word (word txt : jsstring) : bool :=
  units_eqb (caseFold (trim txt)) (caseFold (trim word)).

(** Modelled from the spec: the message record built for a relayed text. *)
Definition chat_message (mid : string) (sender : Player) (word txt : jsstring)
  : ChatMessage :=
  {| msg_id := mid; player_id := id sender; player_name := name sender;
     text := txt; is_correct_guess := matches_word word txt |}.

End WithCaseFold.

End Chat.

(** ** Arrays *)

(** [Array.prototype.slice(start, end)] with both arguments given:
    negative indices count from the end, and both are clamped to the
    array. *)
Definition js_slice {A : Type} (start fin : Z) (l : list A) : list A :=
  let len := Z.of_nat (List.length l) in
  let k := if start <? 0 then Z.max (len + start) 0 else Z.min start len in
  let final := if fin <? 0 then Z.max (len + fin) 0 else Z.min fin len in
  firstn (Z.to_nat (Z.max (final - k) 0)) (skipn (Z.to_nat k) l).

(** ** The canvas of [MultiplayerGameScreen] *)
Module Canvas.

Section WithCoord.

(** Touch coordinates ([locationX], [locationY]) are stored and copied,
    never computed on; [show] is their conversion to text in a template
    string. *)
Variable coord : Type.
Variable show : coord -> string.

Record Point := { x : coord; y : coord }.

Record LocalPath := {
  path_id : Z;               (* the time stamp in [`local_${Date.now()}`] *)
  points : list Point;
  color : string;
  brushSize : Z
}.

Inductive EventType := ev_start | ev_move | ev_end | ev_clear | ev_undo.

(** [Omit<DrawingEvent, 'player_id'>], the argument of [onSendDrawing]. *)
Record DrawingEvent := {
  type : EventType;
  ev_x : option coord;
  ev_y : option coord;
  ev_color : string;
  ev_brushSize : Z;
  timestamp : Z
}.

(** The [useState] cells of the screen that drawing touches. *)
Record Drawing := {
  localPaths : list LocalPath;
  currentPath : option LocalPath;
  selectedColor : string;
  selectedBrush : Z          (* the [brushSize] state *)
}.

Definition isDrawing (cp : option Player) : bool := opt_flag is_drawing cp.

(** The handlers are [useCallback] closures made at a render: what they
    read directly ([currentPath], [selectedColor], [brushSize]) is the
    value of that render, [rendered]; a functional update
    ([setX(prev => ...)]) works on the state as it is, [st].  The result is
    the state after the handler's updates and the events handed to
    [onSendDrawing]. *)
Definition handleTouchStart (cp : option Player) (px py : coord) (now : Z)
    (rendered st : Drawing) : Drawing * list DrawingEvent :=
  if negb (isDrawing cp) then (st, [])
  else
    let newPath := {| path_id := now;
                      points := [ {| x := px; y := py |} ];
                      color := selectedColor rendered;
                      brushSize := selectedBrush rendered |} in
    ({| localPaths := localPaths st;
        currentPath := Some newPath;
        selectedColor := selectedColor st;
        selectedBrush := selectedBrush st |},
     [ {| type := ev_start; ev_x := Some px; ev_y := Some py;
          ev_color := selectedColor rendered;
          ev_brushSize := selectedBrush rendered;
          timestamp := now |} ]).

Definition handleTouchMove (cp : option Player) (px py : coord) (now : Z)
    (rendered st : Drawing) : Drawing * list DrawingEvent :=
  if negb (isDrawing cp) then (st, [])
  else
    match currentPath rendered with
    | None => (st, [])
    | Some _ =>
        ({| localPaths := localPaths st;
            currentPath :=
              match currentPath st with
              | None => None
              | Some prev =>
                  Some {| path_id := path_id prev;
                          points := points prev ++ [ {| x := px; y := py |} ];
                          color := color prev;
                          brushSize := brushSize prev |}
              end;
            selectedColor := selectedColor st;
            selectedBrush := selectedBrush st |},
         [ {| type := ev_move; ev_x := Some px; ev_y := Some py;
              ev_color := selectedColor rendered;
              ev_brushSize := selectedBrush rendered;
              timestamp := now |} ])
    end.

Definition handleTouchEnd (cp : option Player) (now : Z)
    (rendered st : Drawing) : Drawing * list DrawingEvent :=
  if negb (isDrawing cp) then (st, [])
  else
    match currentPath rendered with
    | None => (st, [])
    | Some cur =>
        ({| localPaths := localPaths st ++ [cur];
            currentPath := None;
            selectedColor := selectedColor st;
            selectedBrush := selectedBrush st |},
         [ {| type := ev_end; ev_x := None; ev_y := None;
              ev_color := selectedColor rendered;
              ev_brushSize := selectedBrush rendered;
              timestamp := now |} ])
    end.

Definition handleClear (now : Z) (rendered st : Drawing)
  : Drawing * list DrawingEvent :=
  ({| localPaths := [];
      currentPath := None;
      selectedColor := selectedColor st;
      selectedBrush := selectedBrush st |},
   [ {| type := ev_clear; ev_x := None; ev_y := None;
        ev_color := selectedColor rendered;
        ev_brushSize := selectedBrush rendered;
        timestamp := now |} ]).

Definition handleUndo (now : Z) (rendered st : Drawing)
  : Drawing * list DrawingEvent :=
  ({| localPaths := js_slice 0 (-1) (localPaths st);
      currentPath := currentPath st;
      selectedColor := selectedColor st;
      selectedBrush := selectedBrush st |},
   [ {| type := ev_undo; ev_x := None; ev_y := None;
        ev_color := selectedColor rendered;
        ev_brushSize := selectedBrush rendered;
        timestamp := now |} ]).

(** [pointsToPath]: the SVG path data of a point list. *)
Definition pointsToPath (pts : list Point) : string :=
  match pts with
  | [] => EmptyString
  | first :: rest =>
      fold_left
        (fun d point => d ++ " L " ++ show (x point) ++ " " ++ show (y point))%string
        rest
        ("M " ++ show (x first) ++ " " ++ show (y first))%string
  end.

(** What the user can do to the canvas and the tool bar. *)
Inductive Gesture :=
| TouchDown (px py : coord) (now : Z)
| TouchDrag (px py : coord) (now : Z)
| TouchUp (now : Z)
| PressUndo (now : Z)
| PressClear (now : Z).

(** The view becomes the touch responder under
    [onStartShouldSetResponder={() => !!isDrawing}] (and the same for
    moves), and only the responder receives grant, move and release; the
    tool bar is rendered under [isDrawing && ...]. *)
Definition dispatch (cp : option Player) (g : Gesture) (rendered st : Drawing)
  : Drawing * list DrawingEvent :=
  if isDrawing cp then
    match g with
    | TouchDown px py now => handleTouchStart cp px py now rendered st
    | TouchDrag px py now => handleTouchMove cp px py now rendered st
    | TouchUp now => handleTouchEnd cp now rendered st
    | PressUndo now => handleUndo now rendered st
    | PressClear now => handleClear now rendered st
    end
  else (st, []).

(** The mounted screen: its state, and the state as of the last render,
    which is what the handlers in use have captured. *)
Record Mounted := {
  state : Drawing;
  rendered : Drawing
}.

Definition mount (st : Drawing) : Mounted := {| state := st; rendered := st |}.

(** A move is a continuous event: the render its update asks for may come
    after the next event.  A touch down, a release and a press are
    discrete: their updates are rendered before anything else is
    handled. *)
Definition continuous (g : Gesture) : bool :=
  match g with
  | TouchDrag _ _ _ => true
  | _ => false
  end.

Inductive Step :=
| Handle (g : Gesture)
| Render.

Definition step (cp : option Player) (s : Step) (m : Mounted)
  : Mounted * list DrawingEvent :=
  match s with
  | Render => ({| state := state m; rendered := state m |}, [])
  | Handle g =>
      let '(st1, es) := dispatch cp g (rendered m) (state m) in
      ({| state := st1;
          rendered := if continuous g then rendered m else st1 |}, es)
  end.

(** A sequence of steps, with the events sent in order. *)
Fixpoint run (cp : option Player) (steps : list Step) (m : Mounted)
  : Mounted * list DrawingEvent :=
  match steps with
  | [] => (m, [])
  | s :: rest =>
      let '(m1, e1) := step cp s m in
      let '(m2, e2) := run cp rest m1 in
      (m2, e1 ++ e2)
  end.

(** The coordinates an event carries, when it carries both. *)
Definition event_point (e : DrawingEvent) : option Point :=
  match ev_x e, ev_y e with
  | Some px, Some py => Some {| x := px; y := py |}
  | _, _ => None
  end.

(** The coordinates carried by a stream of events, in order. *)
Definition event_points (es : list DrawingEvent) : list Point :=
  flat_map (fun e => match event_point e with
                     | Some p => [p]
                     | None => []
                     end) es.

(** One stroke: a touch down at [p0], drags through [moves], a release. *)
Definition stroke_gesture (p0 : Point) (t0 : Z) (moves : list (Point * Z))
    (tend : Z) : list Gesture :=
  TouchDown (x p0) (y p0) t0
  :: map (fun m => TouchDrag (x (fst m)) (y (fst m)) (snd m)) moves
  ++ [TouchUp tend].

(** The drags of a stroke as steps; the flag of a move says whether its
    update is rendered before the next event. *)
Definition drag_steps (moves : list (Point * Z * bool)) : list Step :=
  flat_map (fun m : Point * Z * bool =>
              Handle (TouchDrag (x (fst (fst m))) (y (fst (fst m))) (snd (fst m)))
              :: (if snd m then [Render] else [])) moves.

(** One stroke as steps. *)
Definition stroke_steps (p0 : Point) (t0 : Z) (moves : list (Point * Z * bool))
    (tend : Z) : list Step :=
  Handle (TouchDown (x p0) (y p0) t0)
  :: drag_steps moves ++ [Handle (TouchUp tend)].

(** The points of the open stroke as of the last render, after the given
    moves: those up to the last move that was rendered. *)
Definition rendered_moves (moves : list (Point * Z * bool)) : list Point :=
  snd (fold_left (fun (acc : list Point * list Point) (m : Point * Z * bool) =>
                    let all := fst acc ++ [fst (fst m)] in
                    (all, if snd m then all else snd acc))
                 moves ([], [])).

End WithCoord.

Arguments x {coord} _.
Arguments y {coord} _.
Arguments Build_Point {coord} _ _.
Arguments path_id {coord} _.
Arguments points {coord} _.
Arguments color {coord} _.
Arguments brushSize {coord} _.
Arguments Build_LocalPath {coord} _ _ _ _.
Arguments type {coord} _.
Arguments ev_x {coord} _.
Arguments ev_y {coord} _.
Arguments ev_color {coord} _.
Arguments ev_brushSize {coord} _.
Arguments timestamp {coord} _.
Arguments Build_DrawingEvent {coord} _ _ _ _ _ _.
Arguments localPaths {coord} _.
Arguments currentPath {coord} _.
Arguments selectedColor {coord} _.
Arguments selectedBrush {coord} _.
Arguments Build_Drawing {coord} _ _ _ _.
Arguments handleTouchStart {coord} _ _ _ _ _ _.
Arguments handleTouchMove {coord} _ _ _ _ _ _.
Arguments handleTouchEnd {coord} _ _ _ _.
Arguments handleClear {coord} _ _ _.
Arguments handleUndo {coord} _ _ _.
Arguments pointsToPath {coord} _ _.
Arguments TouchDown {coord} _ _ _.
Arguments TouchDrag {coord} _ _ _.
Arguments TouchUp {coord} _.
Arguments PressUndo {coord} _.
Arguments PressClear {coord} _.
Arguments dispatch {coord} _ _ _ _.
Arguments state {coord} _.
Arguments rendered {coord} _.
Arguments Build_Mounted {coord} _ _.
Arguments mount {coord} _.
Arguments continuous {coord} _.
Arguments Handle {coord} _.
Arguments Render {coord}.
Arguments step {coord} _ _ _.
Arguments run {coord} _ _ _.
Arguments event_point {coord} _.
Arguments event_points {coord} _.
Arguments stroke_gesture {coord} _ _ _ _.
Arguments drag_steps {coord} _.
Arguments stroke_steps {coord} _ _ _ _.
Arguments rendered_moves {coord} _.

End Canvas.

(** ** The same-device game, [LocalGameApp] *)
Module LocalGame.

Inductive GameState := st_menu | st_settings | st_drawing | st_reveal.

Inductive Difficulty := easy | medium | hard | mixed.

(** [teamCount: 2 | 3 | 4]. *)
Inductive TeamCount := two | three | four.

Definition count_of (c : TeamCount) : nat :=
  match c with
  | two => 2
  | three => 3
  | four => 4
  end.

Record GameSettings := {
  timeLimit : Z;
  difficulty : Difficulty;
  teamCount : TeamCount
}.

Record PathData := {
  d : string;
  color : string;
  strokeWidth : Z
}.

(** What a slot of a [number[]] can hold at run time: a number, [NaN],
    [undefined], or nothing at all (a hole left by a write past the end). *)
Inductive jsval := num (n : Z) | NaN | undefined | hole.

(** Reading index [i]: a hole or an index past the end reads [undefined]. *)
Definition array_get (l : list jsval) (i : nat) : jsval :=
  match nth_error l i with
  | Some hole => undefined
  | Some v => v
  | None => undefined
  end.

(** [v + 1]: [undefined + 1] and [NaN + 1] are [NaN]. *)
Definition js_add1 (v : jsval) : jsval :=
  match v with
  | num n => num (n + 1)
  | _ => NaN
  end.

Fixpoint replace_at (l : list jsval) (i : nat) (v : jsval) : list jsval :=
  match l, i with
  | [], _ => []
  | _ :: r, O => v :: r
  | a :: r, S k => a :: replace_at r k v
  end.

(** [l[i] = v]: inside the array the slot is overwritten; past the end the
    array grows, with holes in between. *)
Definition array_set (l : list jsval) (i : nat) (v : jsval) : list jsval :=
  if (i <? List.length l)%nat
  then replace_at l i v
  else l ++ repeat hole (i - List.length l) ++ [v].

(** [[...prev]]: the copy reads every slot, so holes become [undefined]. *)
Definition spread (l : list jsval) : list jsval :=
  map (fun v => match v with hole => undefined | _ => v end) l.

(** [Array(n).fill(0)]. *)
Definition fill0 (n : nat) : list jsval := repeat (num 0) n.

(** The [useState] cells of [LocalGameApp], and the [currentPath] of the
    last render, which is the one [handleTouchEnd] has captured. *)
Record Game := {
  gameState : GameState;
  currentWord : string;
  scores : list jsval;
  currentTeam : nat;
  timeLeft : Z;
  paths : list PathData;
  currentPath : string;
  selectedColor : string;
  brushSize : Z;
  showWord : bool;
  settings : GameSettings;
  roundNumber : Z;
  renderedPath : string
}.

Definition initial : Game :=
  {| gameState := st_menu; currentWord := EmptyString;
     scores := [num 0; num 0]; currentTeam := 0%nat; timeLeft := 60;
     paths := []; currentPath := EmptyString; selectedColor := "#000000";
     brushSize := 4; showWord := false;
     settings := {| timeLimit := 60; difficulty := mixed; teamCount := two |};
     roundNumber := 1; renderedPath := EmptyString |}.

(** [startRound]; the word is the one [getRandomWord] drew.  The two
    timers it installs are outside this model: they only hide the word and
    count [timeLeft] down, ending in [time_up]. *)
Definition startRound (word : string) (g : Game) : Game :=
  {| gameState := st_drawing; currentWord := word; scores := scores g;
     currentTeam := currentTeam g; timeLeft := timeLimit (settings g);
     paths := []; currentPath := EmptyString;
     selectedColor := selectedColor g; brushSize := brushSize g;
     showWord := true; settings := settings g; roundNumber := roundNumber g;
     renderedPath := EmptyString |}.

(** The last tick of the round interval ([prev <= 1]). *)
Definition time_up (g : Game) : Game :=
  {| gameState := st_reveal; currentWord := currentWord g; scores := scores g;
     currentTeam := currentTeam g; timeLeft := 0;
     paths := paths g; currentPath := currentPath g;
     selectedColor := selectedColor g; brushSize := brushSize g;
     showWord := false; settings := settings g; roundNumber := roundNumber g;
     renderedPath := renderedPath g |}.

Definition handleGuessCorrect (g : Game) : Game :=
  let newScores := spread (scores g) in
  {| gameState := st_menu; currentWord := currentWord g;
     scores := array_set newScores (currentTeam g)
                 (js_add1 (array_get newScores (currentTeam g)));
     currentTeam := ((currentTeam g + 1) mod count_of (teamCount (settings g)))%nat;
     timeLeft := timeLeft g;
     paths := paths g; currentPath := currentPath g;
     selectedColor := selectedColor g; brushSize := brushSize g;
     showWord := showWord g; settings := settings g;
     roundNumber := roundNumber g + 1; renderedPath := currentPath g |}.

Definition handleSkip (g : Game) : Game :=
  {| gameState := st_menu; currentWord := currentWord g; scores := scores g;
     currentTeam := ((currentTeam g + 1) mod count_of (teamCount (settings g)))%nat;
     timeLeft := timeLeft g;
     paths := paths g; currentPath := currentPath g;
     selectedColor := selectedColor g; brushSize := brushSize g;
     showWord := showWord g; settings := settings g;
     roundNumber := roundNumber g + 1; renderedPath := currentPath g |}.

(** The canvas cells after a handler: the paths, the open path, and the
    open path as of the last render ([shown]).  A touch down, a release and
    a press are discrete events, rendered before anything else is handled;
    a move is a continuous one, and the render of its update may come
    after the next event. *)
Definition with_paths (ps : list PathData) (cur shown : string) (g : Game)
  : Game :=
  {| gameState := gameState g; currentWord := currentWord g; scores := scores g;
     currentTeam := currentTeam g; timeLeft := timeLeft g;
     paths := ps; currentPath := cur;
     selectedColor := selectedColor g; brushSize := brushSize g;
     showWord := showWord g; settings := settings g; roundNumber := roundNumber g;
     renderedPath := shown |}.

Definition clearCanvas (g : Game) : Game :=
  with_paths [] EmptyString EmptyString g.

Definition undoLast (g : Game) : Game :=
  with_paths (js_slice 0 (-1) (paths g)) (currentPath g) (currentPath g) g.

(** [handleTouchStart], [handleTouchMove]: [sx], [sy] are the texts
    [locationX.toFixed(0)], [locationY.toFixed(0)]; the move is a
    functional update of [currentPath]. *)
Definition handleTouchStart (sx sy : string) (g : Game) : Game :=
  with_paths (paths g) ("M" ++ sx ++ "," ++ sy)%string
             ("M" ++ sx ++ "," ++ sy)%string g.

Definition handleTouchMove (sx sy : string) (g : Game) : Game :=
  with_paths (paths g) (currentPath g ++ " L" ++ sx ++ "," ++ sy)%string
             (renderedPath g) g.

(** [handleTouchEnd]: [if (currentPath)] and the path appended are the
    [currentPath] of the last render; the empty string is falsy.  (The
    colour and the brush size are captured too; they change by presses
    only.) *)
Definition handleTouchEnd (g : Game) : Game :=
  match renderedPath g with
  | EmptyString => g
  | cur =>
      with_paths (paths g ++ [ {| d := cur; color := selectedColor g;
                                  strokeWidth := brushSize g |} ])
                 EmptyString EmptyString g
  end.

(** A render: the handlers made by it capture the state as it is. *)
Definition repaint (g : Game) : Game :=
  with_paths (paths g) (currentPath g) (currentPath g) g.

Definition resetGame (g : Game) : Game :=
  {| gameState := gameState g; currentWord := currentWord g;
     scores := fill0 (count_of (teamCount (settings g)));
     currentTeam := 0%nat; timeLeft := timeLeft g;
     paths := paths g; currentPath := currentPath g;
     selectedColor := selectedColor g; brushSize := brushSize g;
     showWord := showWord g; settings := settings g; roundNumber := 1;
     renderedPath := currentPath g |}.

Definition with_state (s : GameState) (g : Game) : Game :=
  {| gameState := s; currentWord := currentWord g; scores := scores g;
     currentTeam := currentTeam g; timeLeft := timeLeft g;
     paths := paths g; currentPath := currentPath g;
     selectedColor := selectedColor g; brushSize := brushSize g;
     showWord := showWord g; settings := settings g; roundNumber := roundNumber g;
     renderedPath := currentPath g |}.

(** The team buttons of the settings screen:
    [setSettings(s => ({...s, teamCount: count})); setScores(Array(count).fill(0))]. *)
Definition select_teamCount (c : TeamCount) (g : Game) : Game :=
  {| gameState := gameState g; currentWord := currentWord g;
     scores := fill0 (count_of c);
     currentTeam := currentTeam g; timeLeft := timeLeft g;
     paths := paths g; currentPath := currentPath g;
     selectedColor := selectedColor g; brushSize := brushSize g;
     showWord := showWord g;
     settings := {| timeLimit := timeLimit (settings g);
                    difficulty := difficulty (settings g);
                    teamCount := c |};
     roundNumber := roundNumber g; renderedPath := currentPath g |}.

(** The buttons of the four screens (colour, brush, time and difficulty
    pickers left out), the end of the countdown, and a render of the
    screen. *)
Inductive Press :=
| StartRound (word : string)
| OpenSettings
| NewGame
| SelectTeams (c : TeamCount)
| BackToGame
| GotIt
| Skip
| Undo
| ClearAll
| TouchDown (sx sy : string)
| TouchDrag (sx sy : string)
| TouchUp
| TimeUp
| Repaint.

(** Each screen renders only its own buttons. *)
Definition press (p : Press) (g : Game) : Game :=
  match gameState g, p with
  | st_menu, StartRound w => startRound w g
  | st_menu, OpenSettings => with_state st_settings g
  | st_menu, NewGame => resetGame g
  | st_settings, SelectTeams c => select_teamCount c g
  | st_settings, BackToGame => with_state st_menu g
  | st_drawing, GotIt => handleGuessCorrect g
  | st_drawing, Skip => handleSkip g
  | st_drawing, Undo => undoLast g
  | st_drawing, ClearAll => clearCanvas g
  | st_drawing, TouchDown sx sy => handleTouchStart sx sy g
  | st_drawing, TouchDrag sx sy => handleTouchMove sx sy g
  | st_drawing, TouchUp => handleTouchEnd g
  | st_drawing, TimeUp => time_up g
  | st_reveal, GotIt => handleGuessCorrect g
  | st_reveal, Skip => handleSkip g
  | _, Repaint => repaint g
  | _, _ => g
  end.

Definition play (ps : list Press) (g : Game) : Game :=
  fold_left (fun acc p => press p acc) ps g.

(** The number in a slot, when it holds one. *)
Definition as_number (v : jsval) : option Z :=
  match v with
  | num n => Some n
  | _ => None
  end.

End LocalGame.

(** ** Creating and joining a room from [MultiplayerApp] *)
Module Session.

Section WithHook.

(** The rows held by the hosted backend. *)
Variable Backend : Type.

(** An [Alert.alert(title, message, ...)] shown to the user. *)
Record Notice := { title : string; message : string }.

Record World := {
  configured : bool;          (* [isSupabaseConfigured()] *)
  local : Store;
  backend : Backend;
  notices : list Notice
}.

(** The hook's actions ([hooks/useMultiplayer] is not among the sources):
    whatever they do to the store and the backend. *)
Variable createRoom : string -> World -> option string * World.
Variable joinRoom : string -> string -> World -> bool * World.

Definition show_notice (n : Notice) (w : World) : World :=
  {| configured := configured w; local := local w; backend := backend w;
     notices := notices w ++ [n] |}.

Definition create_notice : Notice :=
  {| title := "Setup Required";
     message := "Multiplayer requires Supabase configuration. Please add your Supabase URL and anon key to the environment." |}.

Definition join_notice : Notice :=
  {| title := "Setup Required";
     message := "Multiplayer requires Supabase configuration." |}.

Definition handleCreateRoom (playerName : string) (w : World)
  : option string * World :=
  if negb (configured w)
  then (None, show_notice create_notice w)
  else createRoom playerName w.

Definition handleJoinRoom (code playerName : string) (w : World)
  : bool * World :=
  if negb (configured w)
  then (false, show_notice join_notice w)
  else joinRoom code playerName w.

End WithHook.

Arguments configured {Backend} _.
Arguments local {Backend} _.
Arguments backend {Backend} _.
Arguments notices {Backend} _.
Arguments Build_World {Backend} _ _ _ _.
Arguments show_notice {Backend} _ _.
Arguments handleCreateRoom {Backend} _ _ _.
Arguments handleJoinRoom {Backend} _ _ _ _.

End Session.

(** ** Sample data *)
Module Sample.

Definition settings60 : RoomSettings :=
  {| timer_seconds := 60; allow_tag_team := true |}.

(** A room in play whose round started at time 1000000. *)
Definition room60 : Room :=
  {| code := "QXKD"; status := playing; settings := settings60;
     current_round := 1; current_word := Some "Elephant"%string;
     drawing_team := Some team1; round_start_time := Some 1000000 |}.

Definition lobby_room : Room :=
  {| code := "QXKD"; status := waiting; settings := settings60;
     current_round := 0; current_word := None;
     drawing_team := None; round_start_time := None |}.

Definition ann : Player :=
  {| id := "p1"; name := "Ann"; team := Some team1; is_host := true;
     is_ready := true; is_drawing := false; score := 0 |}.

Definition bob : Player :=
  {| id := "p2"; name := "Bob"; team := Some team2; is_host := false;
     is_ready := true; is_drawing := false; score := 0 |}.

(** The host alone in the lobby, not yet ready. *)
Definition ann_waiting : Player :=
  {| id := "p1"; name := "Ann"; team := Some team1; is_host := true;
     is_ready := false; is_drawing := false; score := 0 |}.

Definition solo_lobby : Client :=
  {| screen := lobby;
     store := {| room := Some lobby_room; players := [ann_waiting];
                 currentPlayer := Some ann_waiting; error := None |} |}.

(** Ann (host, team 1) and Bob (team 2), both ready. *)
Definition full_lobby : Client :=
  {| screen := lobby;
     store := {| room := Some lobby_room; players := [ann; bob];
                 currentPlayer := Some ann; error := None |} |}.

(** Ann while it is her turn to draw. *)
Definition ann_drawing : Player :=
  {| id := "p1"; name := "Ann"; team := Some team1; is_host := true;
     is_ready := true; is_drawing := true; score := 0 |}.

Definition pt (px py : Z) : Canvas.Point Z :=
  {| Canvas.x := px; Canvas.y := py |}.

Definition stroke1 : Canvas.LocalPath Z :=
  {| Canvas.path_id := 5; Canvas.points := [pt 1 1; pt 2 2];
     Canvas.color := "#000000"; Canvas.brushSize := 8 |}.

Definition stroke2 : Canvas.LocalPath Z :=
  {| Canvas.path_id := 9; Canvas.points := [pt 7 7];
     Canvas.color := "#FF0000"; Canvas.brushSize := 4 |}.

Definition blank : Canvas.Drawing Z :=
  {| Canvas.localPaths := []; Canvas.currentPath := None;
     Canvas.selectedColor := "#000000"; Canvas.selectedBrush := 8 |}.

Definition two_strokes : Canvas.Drawing Z :=
  {| Canvas.localPaths := [stroke1; stroke2]; Canvas.currentPath := None;
     Canvas.selectedColor := "#000000"; Canvas.selectedBrush := 8 |}.

(** The screen right after a render of these states. *)
Definition blank_screen : Canvas.Mounted Z := Canvas.mount blank.

Definition two_strokes_screen : Canvas.Mounted Z := Canvas.mount two_strokes.

(** A stroke whose last move is not rendered when the finger lifts. *)
Definition late_stroke : list (Canvas.Step Z) :=
  Canvas.stroke_steps (pt 10 20) 100
    [(pt 11 22, 116, true); (pt 13 25, 132, false)] 150.

(** A game set to three teams, played to team index 2, then set back to
    two teams and started again. *)
Definition shrink_trace : list LocalGame.Press :=
  [ LocalGame.OpenSettings; LocalGame.SelectTeams LocalGame.three;
    LocalGame.BackToGame;
    LocalGame.StartRound "cat"; LocalGame.Skip;
    LocalGame.StartRound "dog"; LocalGame.Skip;
    LocalGame.OpenSettings; LocalGame.SelectTeams LocalGame.two;
    LocalGame.BackToGame;
    LocalGame.StartRound "sun" ].

(** A first round of the default two-team game. *)
Definition first_round : LocalGame.Game :=
  LocalGame.press (LocalGame.StartRound "cat") LocalGame.initial.

(** Stand-ins for the hook's actions: each writes a row to the backend and
    changes the local store. *)
Definition offline : Session.World (list string) :=
  {| Session.configured := false;
     Session.local := {| room := None; players := []; currentPlayer := None;
                         error := None |};
     Session.backend := [];
     Session.notices := [] |}.

Definition writing_createRoom (playerName : string)
    (w : Session.World (list string)) : option string * Session.World (list string) :=
  (Some "QXKD"%string,
   {| Session.configured := Session.configured w;
      Session.local := {| room := Some lobby_room; players := [ann_waiting];
                          currentPlayer := Some ann_waiting; error := None |};
      Session.backend := playerName :: Session.backend w;
      Session.notices := Session.notices w |}).

Definition writing_joinRoom (code playerName : string)
    (w : Session.World (list string)) : bool * Session.World (list string) :=
  (true,
   {| Session.configured := Session.configured w;
      Session.local := {| room := Some lobby_room; players := [ann; bob];
                          currentPlayer := Some bob; error := None |};
      Session.backend := playerName :: Session.backend w;
      Session.notices := Session.notices w |}).

Definition idle : Timer.TimerState :=
  {| Timer.timeRemaining := 60; Timer.timerRef := false |}.

End Sample.

(** ** Screen navigation of [MultiplayerApp] *)
Module Navigation.

Definition with_screen (sc : Screen) (c : Client) : Client :=
  {| screen := sc; store := store c |}.

(** The auto-navigation effect: both tests read the [screen] of the render
    that scheduled the effect. *)
Definition autoNavigate (c : Client) : Client :=
  match room (store c) with
  | Some r =>
      match status r, screen c with
      | playing, lobby => with_screen game c
      | _, _ => c
      end
  | None =>
      match screen c with
      | home | create | join => c
      | _ => with_screen home c
      end
  end.

(** [renderScreen]: the lobby and the game need a room and a current
    player, and send the user home without them. *)
Definition renderGuard (c : Client) : Client :=
  match screen c with
  | lobby | game =>
      match room (store c), currentPlayer (store c) with
      | Some _, Some _ => c
      | _, _ => with_screen home c
      end
  | _ => c
  end.

(** The client once the render guard and the effect have both taken
    effect; the order does not matter. *)
Definition settle (c : Client) : Client := autoNavigate (renderGuard c).

End Navigation.

(** ** What [MultiplayerGameScreen] shows *)
Module GameView.

(** [toString()] of an integer. *)
Definition toString (n : Z) : string := NilZero.string_of_int (Z.to_int n).

(** [s.padStart(2, '0')]. *)
Definition padStart2 (s : string) : string :=
  match s with
  | EmptyString => "00"
  | String c EmptyString => String "0" (String c EmptyString)
  | _ => s
  end.

(** [formatTime]: [Math.floor(seconds / 60)] rounds down, [%] keeps the
    sign of [seconds]. *)
Definition formatTime (seconds : Z) : string :=
  let mins := seconds / 60 in
  let secs := Z.rem seconds 60 in
  (toString mins ++ ":" ++ padStart2 (toString secs))%string.

(** [c.toUpperCase()] for a character of the ASCII range. *)
Definition upper_ascii (c : ascii) : ascii :=
  let n := nat_of_ascii c in
  if ((97 <=? n) && (n <=? 122))%nat then ascii_of_nat (n - 32) else c.

Fixpoint blanks (s : string) : string :=
  match s with
  | EmptyString => EmptyString
  | String _ r => String " " (String "_" (blanks r))
  end.

(** [getWordHint]: [null] and the empty word are falsy; the first
    character is shown in upper case, every other one as [' _']. *)
Definition getWordHint (w : option string) : string :=
  match w with
  | None => "???"
  | Some EmptyString => "???"
  | Some (String c r) => String (upper_ascii c) (blanks r)
  end.

(** [players.find(p => p.is_drawing)]. *)
Definition currentDrawer (ps : list Player) : option Player :=
  find is_drawing ps.

Definition team_eqb (a b : option TeamId) : bool :=
  match a, b with
  | Some x, Some y => TeamId_eqb x y
  | None, None => true
  | _, _ => false
  end.

(** [p.team === currentPlayer?.team && p.id !== currentPlayer?.id]: with
    no current player both right-hand sides are [undefined]. *)
Definition is_teammate (cp : option Player) (p : Player) : bool :=
  match cp with
  | Some c => team_eqb (team p) (team c) && negb (String.eqb (id p) (id c))
  | None => false && true
  end.

Definition teammates (cp : option Player) (ps : list Player) : list Player :=
  filter (is_teammate cp) ps.

(** [list.reduce((sum, p) => sum + p.score, 0)]. *)
Definition team_score (ps : list Player) : Z :=
  fold_left (fun sum p => sum + score p) ps 0.

Definition team1Players (ps : list Player) : list Player :=
  filter (on_team team1) ps.

Definition team2Players (ps : list Player) : list Player :=
  filter (on_team team2) ps.

(** The three contents of the status bar. *)
Inductive StatusBar :=
| DrawWord (shown : string)
| GuessHint (shown : string)
| Watching (drawer : string).

(** [a || b] on strings: the empty string is falsy. *)
Definition or_else (a b : string) : string :=
  match a with
  | EmptyString => b
  | _ => a
  end.

(** A word of the ASCII range, and its upper case letter by letter. *)
Fixpoint ascii_word (s : string) : bool :=
  match s with
  | EmptyString => true
  | String c r => (nat_of_ascii c <? 128)%nat && ascii_word r
  end.

Fixpoint upper_word (s : string) : string :=
  match s with
  | EmptyString => EmptyString
  | String c r => String (upper_ascii c) (upper_word r)
  end.

(** An upper-casing agrees with the runtime's on Basic Latin when it takes
    a word of the ASCII range to its upper case letter by letter. *)
Definition upper_basic_latin (toUpperCase : string -> string) : Prop :=
  forall w, ascii_word w = true -> toUpperCase w = upper_word w.

Section WithUpperCase.

(** [String.prototype.toUpperCase] of the runtime; its table is the
    runtime's, not the repository's. *)
Variable toUpperCase : string -> string.

Definition statusBar (r : Room) (ps : list Player) (cp : option Player)
    (word : option string) : StatusBar :=
  if opt_flag is_drawing cp
  then DrawWord (or_else (match word with
                          | Some w => toUpperCase w
                          | None => EmptyString
                          end) "???")
  else if Chat.isGuessingTeam r cp
  then GuessHint (getWordHint word)
  else Watching (or_else (match currentDrawer ps with
                          | Some p => name p
                          | None => EmptyString
                          end) "Someone").

End WithUpperCase.

(** The players offered by the tag-team buttons, which sit in the tool bar
    ([isDrawing && ...]) under
    [room.settings.allow_tag_team && teammates.length > 0]. *)
Definition tagTargets (r : Room) (ps : list Player) (cp : option Player)
  : list Player :=
  if opt_flag is_drawing cp && allow_tag_team (settings r)
  then teammates cp ps
  else [].

End GameView.

(** ** The round clock and the rounds of the local game *)
Module LocalRounds.

(** One firing of the interval installed by [startRound]; the clean-up
    effect removes the interval outside the drawing screen. *)
Definition tick (g : LocalGame.Game) : LocalGame.Game :=
  match LocalGame.gameState g with
  | LocalGame.st_drawing =>
      if LocalGame.timeLeft g <=? 1
      then LocalGame.time_up g
      else
        {| LocalGame.gameState := LocalGame.gameState g;
           LocalGame.currentWord := LocalGame.currentWord g;
           LocalGame.scores := LocalGame.scores g;
           LocalGame.currentTeam := LocalGame.currentTeam g;
           LocalGame.timeLeft := LocalGame.timeLeft g - 1;
           LocalGame.paths := LocalGame.paths g;
           LocalGame.currentPath := LocalGame.currentPath g;
           LocalGame.selectedColor := LocalGame.selectedColor g;
           LocalGame.brushSize := LocalGame.brushSize g;
           LocalGame.showWord := LocalGame.showWord g;
           LocalGame.settings := LocalGame.settings g;
           LocalGame.roundNumber := LocalGame.roundNumber g;
           LocalGame.renderedPath := LocalGame.renderedPath g |}
  | _ => g
  end.

Fixpoint ticks (n : nat) (g : LocalGame.Game) : LocalGame.Game :=
  match n with
  | O => g
  | S k => ticks k (tick g)
  end.

(** How a round ends: "Got It!" or skip. *)
Inductive Outcome := guessed | skipped.

Definition outcome_press (o : Outcome) : LocalGame.Press :=
  match o with
  | guessed => LocalGame.GotIt
  | skipped => LocalGame.Skip
  end.

(** The presses of a run of rounds, each started from the menu with its
    word and ended on the drawing screen. *)
Definition rounds (rs : list (string * Outcome)) : list LocalGame.Press :=
  flat_map (fun r => [LocalGame.StartRound (fst r); outcome_press (snd r)]) rs.

Definition guessed_count (rs : list (string * Outcome)) : Z :=
  Z.of_nat (List.length
              (filter (fun r => match snd r with
                                | guessed => true
                                | skipped => false
                                end) rs)).

Definition is_num (v : LocalGame.jsval) : bool :=
  match v with
  | LocalGame.num _ => true
  | _ => false
  end.

(** The sum of the numbers in a score array. *)
Definition total (l : list LocalGame.jsval) : Z :=
  fold_right (fun v acc => match v with
                           | LocalGame.num n => n + acc
                           | _ => acc
                           end) 0 l.

(** A score board in step with the settings: one numeric slot per team,
    and the drawing team among them. *)
Definition in_step (g : LocalGame.Game) : Prop :=
  List.length (LocalGame.scores g)
    = LocalGame.count_of (LocalGame.teamCount (LocalGame.settings g))
  /\ (LocalGame.currentTeam g
      < LocalGame.count_of (LocalGame.teamCount (LocalGame.settings g)))%nat
  /\ forallb is_num (LocalGame.scores g) = true.

(** A touch stroke on the local canvas: down, drags, up.  The flag of a
    move says whether its update is rendered before the next event. *)
Definition stroke (p0 : string * string)
    (moves : list (string * string * bool)) : list LocalGame.Press :=
  LocalGame.TouchDown (fst p0) (snd p0)
  :: flat_map (fun m : string * string * bool =>
                 LocalGame.TouchDrag (fst (fst m)) (snd (fst m))
                 :: (if snd m then [LocalGame.Repaint] else [])) moves
  ++ [LocalGame.TouchUp].

(** The path data of a stroke as the state holds them and as the last
    render showed them, after the given moves. *)
Definition stroke_paths (p0 : string * string)
    (moves : list (string * string * bool)) : string * string :=
  fold_left (fun (acc : string * string) (m : string * string * bool) =>
               let all := (fst acc ++ " L" ++ fst (fst m) ++ ","
                           ++ snd (fst m))%string in
               (all, if snd m then all else snd acc))
            moves
            (("M" ++ fst p0 ++ "," ++ snd p0)%string,
             ("M" ++ fst p0 ++ "," ++ snd p0)%string).

(** The path data spelling every point of a stroke. *)
Definition stroke_path (p0 : string * string) (moves : list (string * string))
  : string :=
  fold_left (fun acc m => (acc ++ " L" ++ fst m ++ "," ++ snd m)%string)
            moves ("M" ++ fst p0 ++ "," ++ snd p0)%string.

End LocalRounds.

(** ** Gestures of the multiplayer canvas, classified *)
Module Strokes.

Definition is_touch {coord : Type} (g : Canvas.Gesture coord) : bool :=
  match g with
  | Canvas.TouchDown _ _ _ | Canvas.TouchDrag _ _ _ | Canvas.TouchUp _ => true
  | Canvas.PressUndo _ | Canvas.PressClear _ => false
  end.

Definition is_release {coord : Type} (g : Canvas.Gesture coord) : bool :=
  match g with
  | Canvas.TouchUp _ => true
  | _ => false
  end.

(** Steps that are touches or renders. *)
Definition touch_step {coord : Type} (s : Canvas.Step coord) : bool :=
  match s with
  | Canvas.Handle g => is_touch g
  | Canvas.Render => true
  end.

Definition release_step {coord : Type} (s : Canvas.Step coord) : bool :=
  match s with
  | Canvas.Handle g => is_release g
  | Canvas.Render => false
  end.

(** Steps that are moves or renders. *)
Definition drag_step {coord : Type} (s : Canvas.Step coord) : bool :=
  match s with
  | Canvas.Handle (Canvas.TouchDrag _ _ _) => true
  | Canvas.Handle _ => false
  | Canvas.Render => true
  end.

(** Every event handled, with no render but those that discrete events
    bring. *)
Definition handled {coord : Type} (gs : list (Canvas.Gesture coord))
  : list (Canvas.Step coord) :=
  map (@Canvas.Handle coord) gs.

End Strokes.

(** * Properties *)

Lemma RoomStatus_eqb_eq a b : RoomStatus_eqb a b = true <-> a = b.
Proof. destruct a, b; simpl; split; congruence. Qed.

(** ** The round timer *)

Lemma timer_effect_playing r now st :
  status r = playing ->
  Timer.timer_effect (Some r) now st =
  {| Timer.timeRemaining := Timer.remaining r now; Timer.timerRef := true |}.
Proof.
  intros Hs. unfold Timer.timer_effect. now rewrite Hs.
Qed.

Lemma interval_tick_installed r cp st :
  Timer.timerRef st = true ->
  Timer.timerRef (fst (Timer.interval_tick r cp st)) = true.
Proof.
  intros H. unfold Timer.interval_tick. rewrite H.
  destruct (Timer.tick_update r cp (Timer.timeRemaining st)). reflexivity.
Qed.

Lemma run_ticks_installed n : forall r cp st,
  Timer.timerRef st = true ->
  Timer.timerRef (fst (Timer.run_ticks n r cp st)) = true.
Proof.
  induction n as [|k IH]; intros r cp st H; simpl.
  - exact H.
  - pose proof (interval_tick_installed r cp st H) as H1.
    destruct (Timer.interval_tick r cp st) as [st1 c1]. simpl in H1.
    specialize (IH r cp st1 H1).
    destruct (Timer.run_ticks k r cp st1) as [st2 c2]. exact IH.
Qed.

Lemma tick_update_calls r cp prev :
  snd (Timer.tick_update r cp prev) =
  if (prev <=? 1) && opt_flag is_host cp then [Timer.endRound] else [].
Proof.
  unfold Timer.tick_update.
  destruct (prev <=? 1); simpl; [destruct (opt_flag is_host cp)|]; reflexivity.
Qed.

Lemma interval_tick_calls r cp st :
  snd (Timer.interval_tick r cp st) =
  if Timer.timerRef st && (Timer.timeRemaining st <=? 1) && opt_flag is_host cp
  then [Timer.endRound] else [].
Proof.
  unfold Timer.interval_tick. destruct (Timer.timerRef st); simpl; [|reflexivity].
  pose proof (tick_update_calls r cp (Timer.timeRemaining st)) as H.
  destruct (Timer.tick_update r cp (Timer.timeRemaining st)) as [v calls].
  exact H.
Qed.

Lemma run_ticks_not_host n : forall r cp st,
  opt_flag is_host cp = false ->
  snd (Timer.run_ticks n r cp st) = [].
Proof.
  induction n as [|k IH]; intros r cp st Hh; simpl; [reflexivity|].
  pose proof (interval_tick_calls r cp st) as H1.
  destruct (Timer.interval_tick r cp st) as [st1 c1]. simpl in H1.
  specialize (IH r cp st1 Hh).
  destruct (Timer.run_ticks k r cp st1) as [st2 c2]. simpl in *.
  rewrite Hh, andb_false_r in H1. subst. reflexivity.
Qed.

(** C2: while the room is playing, the tick at which a client's countdown
    runs out ([prev <= 1]) submits [endRound] exactly when that client's
    current player is the host; a tick that does not run the countdown out
    submits nothing, and a client whose player is not the host (or who has
    no player) submits nothing over any number of ticks. *)
Theorem round_end_only_by_host (r : Room) (cp : option Player)
    (now : Z) (n : nat) (st0 : Timer.TimerState) :
  status r = playing ->
  let st := fst (Timer.client_run r cp now n st0) in
  (Timer.timeRemaining st <= 1 ->
     (snd (Timer.interval_tick r cp st) = [Timer.endRound]
        <-> opt_flag is_host cp = true)
     /\ (In Timer.endRound (snd (Timer.interval_tick r cp st))
        <-> opt_flag is_host cp = true))
  /\ (1 < Timer.timeRemaining st -> snd (Timer.interval_tick r cp st) = [])
  /\ (opt_flag is_host cp = false ->
        snd (Timer.client_run r cp now n st0) = []
        /\ snd (Timer.interval_tick r cp st) = []).
Proof.
  intros Hs st.
  assert (Hinst : Timer.timerRef st = true).
  { unfold st, Timer.client_run. apply run_ticks_installed.
    rewrite (timer_effect_playing r now st0 Hs). reflexivity. }
  pose proof (interval_tick_calls r cp st) as Hc. rewrite Hinst in Hc. simpl in Hc.
  split; [|split].
  - intros Hle. apply Z.leb_le in Hle. rewrite Hle in Hc. simpl in Hc.
    rewrite Hc. destruct (opt_flag is_host cp); simpl.
    + split; split; intros _; auto.
    + split; split; intros H; try discriminate H; destruct H.
  - intros Hgt. apply Z.leb_gt in Hgt. rewrite Hc. now rewrite Hgt.
  - intros Hh. split.
    + unfold Timer.client_run. now apply run_ticks_not_host.
    + rewrite Hc, Hh. now rewrite andb_false_r.
Qed.

Lemma round_end_only_by_host_witness :
  status Sample.room60 = playing
  /\ snd (Timer.interval_tick Sample.room60 (Some Sample.ann)
            (fst (Timer.client_run Sample.room60 (Some Sample.ann)
                    1000000 59 Sample.idle))) = [Timer.endRound]
  /\ snd (Timer.client_run Sample.room60 (Some Sample.bob)
            1000000 200 Sample.idle) = [].
Proof.
  pose proof (round_end_only_by_host Sample.room60 (Some Sample.ann)
                1000000 59 Sample.idle eq_refl) as Ha.
  pose proof (round_end_only_by_host Sample.room60 (Some Sample.bob)
                1000000 200 Sample.idle eq_refl) as Hb.
  simpl in Ha, Hb.
  destruct Ha as [Ha _]. destruct Hb as [_ [_ Hb]].
  split; [reflexivity|]. split.
  - apply Ha; [vm_compute; discriminate | reflexivity].
  - apply Hb. reflexivity.
Defined.

Lemma remaining_started r T0 now :
  round_start_time r = Some T0 ->
  Timer.remaining r now =
  Z.max 0 (timer_seconds (settings r) - (now - T0) / 1000).
Proof. intros H. unfold Timer.remaining. now rewrite H. Qed.

(** C4: for a room that is playing, with [round_start_time = T0] and
    [timer_seconds = D], the remaining time set at wall-clock time [t]
    (milliseconds) is [max 0 (D - floor ((t - T0) / 1000))]; it is never
    negative, and for [D = 60] it is 15 at 45 s after [T0] and 0 at 70 s
    after [T0]. *)
Theorem remaining_time_clamped (r : Room) (T0 D t : Z)
    (st : Timer.TimerState) :
  status r = playing ->
  round_start_time r = Some T0 ->
  timer_seconds (settings r) = D ->
  let v := Timer.timeRemaining (Timer.timer_effect (Some r) t st) in
  v = Z.max 0 (D - (t - T0) / 1000)
  /\ 0 <= v
  /\ (D = 60 -> t = T0 + 45 * 1000 -> v = 15)
  /\ (D = 60 -> t = T0 + 70 * 1000 -> v = 0).
Proof.
  intros Hs Ht Hd v.
  assert (Hv : v = Z.max 0 (D - (t - T0) / 1000)).
  { unfold v. rewrite (timer_effect_playing r t st Hs). simpl.
    rewrite (remaining_started r T0 t Ht), Hd. reflexivity. }
  split; [exact Hv|]. split; [rewrite Hv; apply Z.le_max_l|].
  split; intros HD Hat; rewrite Hv, HD, Hat.
  - replace (T0 + 45 * 1000 - T0) with (45 * 1000) by lia.
    rewrite Z.div_mul by lia. reflexivity.
  - replace (T0 + 70 * 1000 - T0) with (70 * 1000) by lia.
    rewrite Z.div_mul by lia. reflexivity.
Qed.

Lemma remaining_time_clamped_witness :
  Timer.timeRemaining
    (Timer.timer_effect (Some Sample.room60) (1000000 + 45 * 1000) Sample.idle) = 15
  /\ Timer.timeRemaining
    (Timer.timer_effect (Some Sample.room60) (1000000 + 70 * 1000) Sample.idle) = 0.
Proof.
  split.
  - apply (remaining_time_clamped Sample.room60 1000000 60
             (1000000 + 45 * 1000) Sample.idle eq_refl eq_refl eq_refl);
      reflexivity.
  - apply (remaining_time_clamped Sample.room60 1000000 60
             (1000000 + 70 * 1000) Sample.idle eq_refl eq_refl eq_refl);
      reflexivity.
Defined.

Lemma interval_tick_value r cp st :
  Timer.timerRef st = true ->
  Timer.timeRemaining (fst (Timer.interval_tick r cp st)) =
  if Timer.timeRemaining st <=? 1
  then timer_seconds (settings r)
  else Timer.timeRemaining st - 1.
Proof.
  intros H. unfold Timer.interval_tick, Timer.tick_update. rewrite H.
  destruct (Timer.timeRemaining st <=? 1); reflexivity.
Qed.

(** C3, as stated, fails: a countdown value at a tick is not the clamped
    recomputation.  In a 60 s round started at 1000000 the effect runs
    59 s in and sets the countdown to 1; the interval fires one second
    later and sets it to 60, where the recomputation at that moment, and at
    any later one, is 0. *)
Lemma countdown_not_recomputed :
  status Sample.room60 = playing
  /\ Timer.timeRemaining
       (Timer.timer_effect (Some Sample.room60) 1059000 Sample.idle) = 1
  /\ Timer.timeRemaining
       (fst (Timer.interval_tick Sample.room60 (Some Sample.bob)
          (Timer.timer_effect (Some Sample.room60) 1059000 Sample.idle))) = 60
  /\ Timer.remaining Sample.room60 1060000 = 0
  /\ Timer.timeRemaining
       (fst (Timer.interval_tick Sample.room60 (Some Sample.bob)
          (Timer.timer_effect (Some Sample.room60) 1059000 Sample.idle)))
     <> Timer.remaining Sample.room60 1060000
  /\ (forall t, 1059000 <= t ->
        Timer.timeRemaining
          (fst (Timer.interval_tick Sample.room60 (Some Sample.bob)
             (Timer.timer_effect (Some Sample.room60) 1059000 Sample.idle)))
        <> Timer.remaining Sample.room60 t).
Proof.
  repeat split; try reflexivity.
  - vm_compute. discriminate.
  - intros t Ht. change (60 <> Z.max 0 (60 - (t - 1000000) / 1000)).
    assert (59 <= (t - 1000000) / 1000) by (apply Z.div_le_lower_bound; lia).
    lia.
Qed.

(** C3, amended: while the room is playing the countdown equals the
    clamped recomputation [max 0 (D - floor (elapsed / 1000))] at the
    moment the timer effect runs; from then on each firing of the interval
    takes the previous value [prev] to [prev - 1], or back to [D] when
    [prev <= 1], without reading the clock, until the effect runs again. *)
Theorem countdown_resync_then_local_steps (r : Room) (cp : option Player)
    (T0 now : Z) (n : nat) (st0 : Timer.TimerState) :
  status r = playing ->
  round_start_time r = Some T0 ->
  let D := timer_seconds (settings r) in
  Timer.timeRemaining (Timer.timer_effect (Some r) now st0)
    = Z.max 0 (D - (now - T0) / 1000)
  /\ (let st := fst (Timer.client_run r cp now n st0) in
      Timer.timeRemaining (fst (Timer.interval_tick r cp st)) =
      if Timer.timeRemaining st <=? 1 then D else Timer.timeRemaining st - 1).
Proof.
  intros Hs Ht D. split.
  - rewrite (timer_effect_playing r now st0 Hs). simpl.
    apply (remaining_started r T0 now Ht).
  - intros st. apply interval_tick_value.
    unfold st, Timer.client_run. apply run_ticks_installed.
    rewrite (timer_effect_playing r now st0 Hs). reflexivity.
Qed.

Lemma countdown_resync_then_local_steps_witness :
  Timer.timeRemaining
    (Timer.timer_effect (Some Sample.room60) 1012345 Sample.idle) = 48
  /\ Timer.timeRemaining
       (fst (Timer.interval_tick Sample.room60 (Some Sample.ann)
          (fst (Timer.client_run Sample.room60 (Some Sample.ann)
                  1012345 5 Sample.idle)))) = 42.
Proof.
  pose proof (countdown_resync_then_local_steps Sample.room60 (Some Sample.ann)
                1000000 1012345 5 Sample.idle eq_refl eq_refl) as H.
  destruct H as [H1 H2]. split.
  - etransitivity; [exact H1 | reflexivity].
  - etransitivity; [exact H2 | reflexivity].
Defined.

(** ** The lobby *)

Lemma filter_nonempty_iff {A} (f : A -> bool) (l : list A) :
  (1 <=? List.length (filter f l))%nat = true <-> exists a, In a l /\ f a = true.
Proof.
  rewrite Nat.leb_le. split.
  - intros H. destruct (filter f l) as [|a rest] eqn:E; [simpl in H; lia|].
    exists a. apply filter_In. rewrite E. now left.
  - intros [a Ha]. apply filter_In in Ha.
    destruct (filter f l); [destruct Ha | simpl; lia].
Qed.

Lemma on_team_iff t p : on_team t p = true <-> team p = Some t.
Proof.
  unfold on_team. destruct (team p) as [t'|].
  - destruct t', t; simpl; split; congruence.
  - split; discriminate.
Qed.

Lemma startButton_rendered_iff cp :
  Lobby.startButton_rendered cp = true /\ opt_flag is_host cp = true
  <-> exists h, cp = Some h /\ is_host h = true /\ team h <> None.
Proof.
  unfold Lobby.startButton_rendered. split.
  - intros [H1 H2]. destruct cp as [h|]; [|discriminate].
    exists h. destruct (team h); [|discriminate].
    repeat split; [exact H1 | discriminate].
  - intros [h [-> [Hh Ht]]]. simpl.
    destruct (team h); [now split | now destruct Ht].
Qed.

Lemma startButton_enabled_iff s :
  Lobby.startButton_enabled s = true <-> Lobby.may_start s.
Proof.
  unfold Lobby.startButton_enabled, Lobby.canStart, Lobby.allReady,
    Lobby.team1Players, Lobby.team2Players, Lobby.may_start.
  rewrite !andb_true_iff, !filter_nonempty_iff, forallb_forall, Nat.leb_le.
  rewrite <- startButton_rendered_iff.
  split.
  - intros [Hr [[[Hh [Hn Ha]] [a [Ha1 Ha2]]] [b [Hb1 Hb2]]]].
    repeat split; auto.
    + exists a. split; [exact Ha1 | now apply on_team_iff].
    + exists b. split; [exact Hb1 | now apply on_team_iff].
  - intros [[Hr Hh] [Hn [Ha [[a [Ha1 Ha2]] [b [Hb1 Hb2]]]]]].
    repeat split; auto.
    + exists a. split; [exact Ha1 | now apply on_team_iff].
    + exists b. split; [exact Hb1 | now apply on_team_iff].
Qed.

Lemma enabled_meets_preconditions s :
  Lobby.startButton_enabled s = true -> Lobby.start_preconditions s = true.
Proof.
  unfold Lobby.startButton_enabled, Lobby.canStart, Lobby.allReady,
    Lobby.team1Players, Lobby.team2Players, Lobby.start_preconditions.
  rewrite !andb_true_iff. tauto.
Qed.

Lemma canStart_iff cp ps :
  Lobby.canStart cp ps = true
  <-> (exists h, cp = Some h /\ is_host h = true)
      /\ (2 <= List.length ps)%nat
      /\ (forall p, In p ps -> is_ready p = true)
      /\ (exists p, In p ps /\ team p = Some team1)
      /\ (exists p, In p ps /\ team p = Some team2).
Proof.
  unfold Lobby.canStart, Lobby.allReady, Lobby.team1Players, Lobby.team2Players.
  rewrite !andb_true_iff, !filter_nonempty_iff, forallb_forall, Nat.leb_le.
  assert (Hh : opt_flag is_host cp = true
               <-> exists h, cp = Some h /\ is_host h = true).
  { destruct cp as [h|]; simpl; split.
    - intros H. now exists h.
    - intros [h' [E H]]. now injection E as ->.
    - discriminate.
    - intros [h' [E _]]. discriminate. }
  rewrite Hh. split.
  - intros [[[H1 [H2 H3]] [a [Ha1 Ha2]]] [b [Hb1 Hb2]]].
    repeat split; auto.
    + exists a. split; [exact Ha1 | now apply on_team_iff].
    + exists b. split; [exact Hb1 | now apply on_team_iff].
  - intros [H1 [H2 [H3 [[a [Ha1 Ha2]] [b [Hb1 Hb2]]]]]].
    repeat split; auto.
    + exists a. split; [exact Ha1 | now apply on_team_iff].
    + exists b. split; [exact Hb1 | now apply on_team_iff].
Qed.

Lemma start_preconditions_iff s :
  Lobby.start_preconditions s = true <-> Lobby.start_conditions s.
Proof.
  unfold Lobby.start_conditions. rewrite <- canStart_iff.
  unfold Lobby.start_preconditions, Lobby.canStart, Lobby.allReady,
    Lobby.team1Players, Lobby.team2Players.
  rewrite !andb_true_iff. tauto.
Qed.

Lemma startGame_status (word drawer : string) (now : Z) (s : Store) (r : Room) :
  room s = Some r ->
  option_map status (room (Lobby.startGame word drawer now s))
  = Some (if Lobby.start_preconditions s then playing else status r).
Proof.
  intros Hr. unfold Lobby.startGame. rewrite Hr.
  destruct (Lobby.start_preconditions s); reflexivity.
Qed.

(** C1: in a waiting room, the start-game action takes the room to
    [playing] if and only if it is taken by the host and, at that moment,
    there are at least 2 players, every player is ready and each of the two
    teams has a member; when any of these fails the action leaves the room,
    so its status, and the players as they were and produces
    [PreconditionFailed].  The lobby's own gate [canStart], which enables
    the start button, is the same condition. *)
Theorem start_game_gate (word drawer : string) (now : Z) (s : Store)
    (r : Room) :
  room s = Some r ->
  status r = waiting ->
  let s' := Lobby.startGame word drawer now s in
  (option_map status (room s') = Some playing <-> Lobby.start_conditions s)
  /\ (~ Lobby.start_conditions s ->
        option_map status (room s') = Some waiting
        /\ room s' = room s
        /\ players s' = players s
        /\ error s' = Some PreconditionFailed)
  /\ (Lobby.canStart (currentPlayer s) (players s) = true
      <-> Lobby.start_conditions s).
Proof.
  intros Hr Hw s'.
  pose proof (startGame_status word drawer now s r Hr) as Hst. fold s' in Hst.
  split; [|split].
  - rewrite Hst, <- start_preconditions_iff.
    destruct (Lobby.start_preconditions s); [tauto|].
    rewrite Hw. split; discriminate.
  - intros Hno.
    assert (Hp : Lobby.start_preconditions s = false).
    { destruct (Lobby.start_preconditions s) eqn:E; [|reflexivity].
      apply start_preconditions_iff in E. contradiction. }
    rewrite Hst, Hp, Hw. unfold s', Lobby.startGame.
    destruct (room s) as [r0|] eqn:Er; [|discriminate Hr].
    rewrite Hp. simpl. now repeat split.
  - unfold Lobby.start_conditions. apply canStart_iff.
Qed.

Lemma start_game_gate_witness :
  option_map status
    (room (Lobby.startGame "cat" "p1" 1000000 (store Sample.full_lobby)))
  = Some playing
  /\ error (Lobby.startGame "cat" "p1" 1000000 (store Sample.solo_lobby))
     = Some PreconditionFailed.
Proof.
  pose proof (start_game_gate "cat" "p1" 1000000 (store Sample.full_lobby)
                Sample.lobby_room eq_refl eq_refl) as [Hf _].
  pose proof (start_game_gate "cat" "p1" 1000000 (store Sample.solo_lobby)
                Sample.lobby_room eq_refl eq_refl) as [_ [Hs _]].
  split.
  - apply Hf. apply start_preconditions_iff. reflexivity.
  - apply Hs. intros H. apply start_preconditions_iff in H. discriminate H.
Defined.

(** A press on the start button leads to the start action only when the
    button is there and enabled at the press; the action then runs at the
    end of the button's animation, on the store as it is by then, and
    decides on that store. *)
Lemma start_press_then_action (startGame : Store -> Store) (c0 c1 : Client) :
  (Lobby.handleStartPress c0 = true
     <-> screen c0 = lobby /\ Lobby.may_start (store c0))
  /\ (Lobby.handleStartPress c0 = false ->
      Lobby.animation_end startGame (Lobby.handleStartPress c0) c1 = c1)
  /\ (Lobby.handleStartPress c0 = true ->
      store (Lobby.animation_end startGame (Lobby.handleStartPress c0) c1)
      = startGame (store c1)).
Proof.
  split; [|split].
  - unfold Lobby.handleStartPress. rewrite <- startButton_enabled_iff.
    destruct (screen c0); split; try discriminate; try tauto;
      intros [H _]; discriminate.
  - intros H. now rewrite H.
  - intros H. now rewrite H.
Qed.

(** ** Chat and guesses *)

Lemma trimStart_head s :
  Chat.trimStart s = []
  \/ exists u r, Chat.trimStart s = u :: r /\ Chat.is_white u = false.
Proof.
  induction s as [|u r IH]; simpl; [now left|].
  destruct (Chat.is_white u) eqn:E; [exact IH|].
  right. now exists u, r.
Qed.

Lemma trimEnd_head u r :
  Chat.is_white u = false -> exists r', Chat.trimEnd (u :: r) = u :: r'.
Proof.
  intros H. simpl. destruct (Chat.trimEnd r) as [|u' r''].
  - rewrite H. now exists [].
  - now exists (u' :: r'').
Qed.

Lemma trimEnd_idempotent s : Chat.trimEnd (Chat.trimEnd s) = Chat.trimEnd s.
Proof.
  induction s as [|u r IH]; [reflexivity|].
  simpl. destruct (Chat.trimEnd r) as [|u' r''] eqn:E.
  - destruct (Chat.is_white u) eqn:W; [reflexivity|]. simpl. now rewrite W.
  - change (Chat.trimEnd (u :: u' :: r'')) with
      (match Chat.trimEnd (u' :: r'') with
       | [] => if Chat.is_white u then [] else [u]
       | r' => u :: r'
       end).
    now rewrite IH.
Qed.

Lemma trim_idempotent s : Chat.trim (Chat.trim s) = Chat.trim s.
Proof.
  unfold Chat.trim.
  destruct (trimStart_head s) as [H | [u [r [H W]]]]; rewrite H.
  - reflexivity.
  - destruct (trimEnd_head u r W) as [r' Hr]. rewrite Hr.
    simpl Chat.trimStart. rewrite W. rewrite <- Hr. apply trimEnd_idempotent.
Qed.

Lemma units_eqb_eq a : forall b, Chat.units_eqb a b = true <-> a = b.
Proof.
  induction a as [|u a' IH]; intros [|v b']; simpl; split;
    try reflexivity; try discriminate.
  - intros H. apply andb_true_iff in H. destruct H as [Hu Ha].
    apply N.eqb_eq in Hu. apply IH in Ha. now subst.
  - intros H. injection H as -> ->. rewrite N.eqb_refl. now apply IH.
Qed.

Lemma matches_word_iff caseFold word txt :
  Chat.matches_word caseFold word txt = true
  <-> caseFold (Chat.trim txt) = caseFold (Chat.trim word).
Proof. unfold Chat.matches_word. apply units_eqb_eq. Qed.

Lemma fold_latin1_basic : Chat.folds_basic_latin Chat.fold_latin1.
Proof.
  intros s. induction s as [|u r IH]; intros H; [reflexivity|].
  simpl in H. apply andb_true_iff in H. destruct H as [Hu Hr].
  simpl. rewrite (IH Hr). f_equal. unfold Chat.lower_unit.
  apply N.ltb_lt in Hu.
  destruct ((65 <=? u) && (u <=? 90))%N eqn:E; [reflexivity|].
  assert (E2 : (192 <=? u)%N = false) by (apply N.leb_gt; lia).
  now rewrite E2.
Qed.

(** C5: a relayed chat message is marked [is_correct_guess = true] exactly
    when its trimmed, case-folded text equals the trimmed, case-folded
    active word, and [false] for any other text; the screen sends the
    trimmed input, which gets the same mark as the input as typed.  For the
    word "Elephant", " elephant " is marked correct (also with a no-break
    space at its end) and "elephants" is not. *)
Theorem correct_guess_iff_word_match
    (caseFold : Chat.jsstring -> Chat.jsstring) (mid : string)
    (sender : Player) (word txt : Chat.jsstring) :
  Chat.folds_basic_latin caseFold ->
  (Chat.is_correct_guess (Chat.chat_message caseFold mid sender word txt) = true
     <-> caseFold (Chat.trim txt) = caseFold (Chat.trim word))
  /\ (Chat.is_correct_guess (Chat.chat_message caseFold mid sender word txt)
      = false
     <-> caseFold (Chat.trim txt) <> caseFold (Chat.trim word))
  /\ snd (Chat.handleSendChat txt) =
       (if Chat.is_empty (Chat.trim txt) then [] else [Chat.trim txt])
  /\ Chat.is_correct_guess
       (Chat.chat_message caseFold mid sender word (Chat.trim txt))
     = Chat.is_correct_guess (Chat.chat_message caseFold mid sender word txt)
  /\ Chat.is_correct_guess
       (Chat.chat_message caseFold mid sender (Chat.units "Elephant")
          (Chat.units " elephant ")) = true
  /\ Chat.is_correct_guess
       (Chat.chat_message caseFold mid sender (Chat.units "Elephant")
          (Chat.units " elephant" ++ [160%N])) = true
  /\ Chat.is_correct_guess
       (Chat.chat_message caseFold mid sender (Chat.units "Elephant")
          (Chat.units "elephants")) = false.
Proof.
  intros Hfold. simpl Chat.is_correct_guess.
  split; [apply matches_word_iff|].
  split.
  { rewrite <- matches_word_iff.
    destruct (Chat.matches_word caseFold word txt); split; congruence. }
  split.
  { unfold Chat.handleSendChat. now destruct (Chat.is_empty (Chat.trim txt)). }
  split.
  { unfold Chat.matches_word. now rewrite trim_idempotent. }
  unfold Chat.matches_word.
  change (Chat.trim (Chat.units "Elephant")) with (Chat.units "Elephant").
  change (Chat.trim (Chat.units " elephant ")) with (Chat.units "elephant").
  change (Chat.trim (Chat.units " elephant" ++ [160%N]))
    with (Chat.units "elephant").
  change (Chat.trim (Chat.units "elephants")) with (Chat.units "elephants").
  rewrite !Hfold by reflexivity.
  repeat split; reflexivity.
Qed.

Lemma correct_guess_iff_word_match_witness :
  Chat.is_correct_guess
    (Chat.chat_message Chat.fold_latin1 "m1" Sample.bob (Chat.units "Elephant")
       (Chat.units " elephant ")) = true
  /\ Chat.is_correct_guess
       (Chat.chat_message Chat.fold_latin1 "m2" Sample.bob
          (Chat.units "Elephant") (Chat.units "elephants")) = false.
Proof.
  pose proof (correct_guess_iff_word_match Chat.fold_latin1 "m1" Sample.bob
                [] [] fold_latin1_basic) as H1.
  pose proof (correct_guess_iff_word_match Chat.fold_latin1 "m2" Sample.bob
                [] [] fold_latin1_basic) as H2.
  split.
  - exact (proj1 (proj2 (proj2 (proj2 (proj2 H1))))).
  - exact (proj2 (proj2 (proj2 (proj2 (proj2 (proj2 H2)))))).
Defined.

(** ** Arrays *)

Lemma js_slice_drop_last {A} (l : list A) (a : A) :
  js_slice 0 (-1) (l ++ [a]) = l.
Proof.
  unfold js_slice. rewrite length_app. simpl List.length.
  change (0 <? 0) with false. change (-1 <? 0) with true. cbv iota.
  rewrite Z.min_l by lia.
  replace (Z.to_nat (Z.max (Z.max (Z.of_nat (List.length l + 1) + -1) 0 - 0) 0))
    with (List.length l) by lia.
  simpl skipn. rewrite firstn_app, firstn_all, Nat.sub_diag. simpl.
  apply app_nil_r.
Qed.

Lemma js_slice_drop_last_nil {A} : js_slice 0 (-1) (@nil A) = [].
Proof. reflexivity. Qed.

Lemma js_slice_removelast {A} (l : list A) : js_slice 0 (-1) l = removelast l.
Proof.
  induction l as [|a l' _] using rev_ind.
  - reflexivity.
  - rewrite js_slice_drop_last. now rewrite removelast_last.
Qed.

(** ** The canvas *)

Section CanvasFacts.

Context {coord : Type}.

Implicit Types (st : Canvas.Drawing coord) (m : Canvas.Mounted coord)
  (cp : option Player).

Lemma dispatch_not_drawing cp g rd st :
  Canvas.isDrawing cp = false -> Canvas.dispatch cp g rd st = (st, []).
Proof. intros H. unfold Canvas.dispatch. now rewrite H. Qed.

Lemma step_not_drawing cp s m :
  Canvas.isDrawing cp = false ->
  Canvas.state (fst (Canvas.step cp s m)) = Canvas.state m
  /\ snd (Canvas.step cp s m) = [].
Proof.
  intros H. destruct s as [g|]; simpl; [|now split].
  rewrite (dispatch_not_drawing cp g _ _ H). now split.
Qed.

Lemma run_not_drawing cp steps : forall m,
  Canvas.isDrawing cp = false ->
  Canvas.state (fst (Canvas.run cp steps m)) = Canvas.state m
  /\ snd (Canvas.run cp steps m) = [].
Proof.
  induction steps as [|s rest IH]; intros m H; simpl; [now split|].
  destruct (step_not_drawing cp s m H) as [H1 H2].
  destruct (Canvas.step cp s m) as [m1 e1]. simpl in H1, H2.
  destruct (IH m1 H) as [H3 H4].
  destruct (Canvas.run cp rest m1) as [m2 e2]. simpl in *.
  split; [congruence | now rewrite H2, H4].
Qed.

Lemma run_app cp steps1 : forall steps2 m,
  Canvas.run cp (steps1 ++ steps2) m =
  (fst (Canvas.run cp steps2 (fst (Canvas.run cp steps1 m))),
   snd (Canvas.run cp steps1 m)
   ++ snd (Canvas.run cp steps2 (fst (Canvas.run cp steps1 m)))).
Proof.
  induction steps1 as [|s rest IH]; intros steps2 m; simpl.
  - now destruct (Canvas.run cp steps2 m).
  - destruct (Canvas.step cp s m) as [m1 e1]. rewrite IH.
    destruct (Canvas.run cp rest m1) as [m2 e2]. simpl.
    now rewrite app_assoc.
Qed.

Lemma point_eta (p : Canvas.Point coord) :
  {| Canvas.x := Canvas.x p; Canvas.y := Canvas.y p |} = p.
Proof. now destruct p. Qed.

(** The drags of a stroke: each extends the open path of the state and
    sends one [move] event; the open path of the last render follows at
    the renders only. *)
Lemma run_drag_steps cp (moves : list (Canvas.Point coord * Z * bool)) :
  forall m cur all shown,
  Canvas.isDrawing cp = true ->
  Canvas.currentPath (Canvas.state m)
    = Some {| Canvas.path_id := Canvas.path_id cur;
              Canvas.points := Canvas.points cur ++ all;
              Canvas.color := Canvas.color cur;
              Canvas.brushSize := Canvas.brushSize cur |} ->
  Canvas.currentPath (Canvas.rendered m)
    = Some {| Canvas.path_id := Canvas.path_id cur;
              Canvas.points := Canvas.points cur ++ shown;
              Canvas.color := Canvas.color cur;
              Canvas.brushSize := Canvas.brushSize cur |} ->
  let res := Canvas.run cp (Canvas.drag_steps moves) m in
  let acc := fold_left
               (fun (acc : list (Canvas.Point coord) * list (Canvas.Point coord))
                    (mv : Canvas.Point coord * Z * bool) =>
                  (fst acc ++ [fst (fst mv)],
                   if snd mv then fst acc ++ [fst (fst mv)] else snd acc))
               moves (all, shown) in
  Canvas.localPaths (Canvas.state (fst res)) = Canvas.localPaths (Canvas.state m)
  /\ Canvas.selectedColor (Canvas.state (fst res))
     = Canvas.selectedColor (Canvas.state m)
  /\ Canvas.selectedBrush (Canvas.state (fst res))
     = Canvas.selectedBrush (Canvas.state m)
  /\ Canvas.currentPath (Canvas.state (fst res))
     = Some {| Canvas.path_id := Canvas.path_id cur;
               Canvas.points := Canvas.points cur ++ fst acc;
               Canvas.color := Canvas.color cur;
               Canvas.brushSize := Canvas.brushSize cur |}
  /\ Canvas.currentPath (Canvas.rendered (fst res))
     = Some {| Canvas.path_id := Canvas.path_id cur;
               Canvas.points := Canvas.points cur ++ snd acc;
               Canvas.color := Canvas.color cur;
               Canvas.brushSize := Canvas.brushSize cur |}
  /\ map Canvas.type (snd res) = repeat Canvas.ev_move (List.length moves)
  /\ Canvas.event_points (snd res) = map (fun mv => fst (fst mv)) moves.
Proof.
  induction moves as [|[[p t] b] rest IH]; intros m cur all shown Hd Hs Hr.
  - simpl. repeat split; auto.
  - cbn [Canvas.drag_steps flat_map fst snd app].
    change (flat_map _ rest) with (Canvas.drag_steps rest).
    set (m1 := fst (Canvas.step cp
                      (Canvas.Handle (Canvas.TouchDrag (Canvas.x p) (Canvas.y p) t))
                      m)).
    assert (Hstep : Canvas.step cp
                      (Canvas.Handle (Canvas.TouchDrag (Canvas.x p) (Canvas.y p) t))
                      m
                    = (m1, [ {| Canvas.type := Canvas.ev_move;
                                Canvas.ev_x := Some (Canvas.x p);
                                Canvas.ev_y := Some (Canvas.y p);
                                Canvas.ev_color :=
                                  Canvas.selectedColor (Canvas.rendered m);
                                Canvas.ev_brushSize :=
                                  Canvas.selectedBrush (Canvas.rendered m);
                                Canvas.timestamp := t |} ])).
    { unfold m1. cbn [Canvas.step]. unfold Canvas.dispatch. rewrite Hd.
      unfold Canvas.handleTouchMove. rewrite Hr, Hd. reflexivity. }
    assert (Hs1 : Canvas.currentPath (Canvas.state m1)
                  = Some {| Canvas.path_id := Canvas.path_id cur;
                            Canvas.points := Canvas.points cur ++ (all ++ [p]);
                            Canvas.color := Canvas.color cur;
                            Canvas.brushSize := Canvas.brushSize cur |}).
    { unfold m1. cbn [Canvas.step]. unfold Canvas.dispatch. rewrite Hd.
      unfold Canvas.handleTouchMove. rewrite Hr, Hd, Hs. simpl.
      now rewrite point_eta, <- app_assoc. }
    assert (Hr1 : Canvas.rendered m1 = Canvas.rendered m).
    { unfold m1. cbn [Canvas.step]. unfold Canvas.dispatch. rewrite Hd.
      unfold Canvas.handleTouchMove. rewrite Hr, Hd. reflexivity. }
    assert (Hk1 : Canvas.localPaths (Canvas.state m1)
                  = Canvas.localPaths (Canvas.state m)
                  /\ Canvas.selectedColor (Canvas.state m1)
                     = Canvas.selectedColor (Canvas.state m)
                  /\ Canvas.selectedBrush (Canvas.state m1)
                     = Canvas.selectedBrush (Canvas.state m)).
    { unfold m1. cbn [Canvas.step]. unfold Canvas.dispatch. rewrite Hd.
      unfold Canvas.handleTouchMove. rewrite Hr, Hd. simpl. auto. }
    destruct Hk1 as [K1 [K2 K3]].
    destruct b.
    + (* the move is rendered *)
      cbn [Canvas.run app]. rewrite Hstep.
      cbn [Canvas.step].
      set (m2 := {| Canvas.state := Canvas.state m1;
                    Canvas.rendered := Canvas.state m1 |}).
      specialize (IH m2 cur (all ++ [p]) (all ++ [p]) Hd Hs1 Hs1).
      cbv zeta in IH. cbn [fold_left fst snd].
      destruct (Canvas.run cp (Canvas.drag_steps rest) m2) as [m3 e3].
      cbn [fst snd] in *. unfold m2 in IH. cbn [Canvas.state] in IH.
      destruct IH as [I1 [I2 [I3 [I4 [I5 [I6 I7]]]]]].
      repeat split; try congruence;
        try (cbn [app map List.length repeat Canvas.type]; now rewrite I6);
        try (unfold Canvas.event_points in *;
             cbn [app flat_map Canvas.event_point Canvas.ev_x Canvas.ev_y
                    map fst];
             rewrite I7, point_eta; reflexivity).
    + (* the move is not rendered yet *)
      cbn [Canvas.run app]. rewrite Hstep.
      assert (Hr1' : Canvas.currentPath (Canvas.rendered m1)
                     = Some {| Canvas.path_id := Canvas.path_id cur;
                               Canvas.points := Canvas.points cur ++ shown;
                               Canvas.color := Canvas.color cur;
                               Canvas.brushSize := Canvas.brushSize cur |})
        by (rewrite Hr1; exact Hr).
      specialize (IH m1 cur (all ++ [p]) shown Hd Hs1 Hr1').
      cbv zeta in IH. cbn [fold_left fst snd].
      destruct (Canvas.run cp (Canvas.drag_steps rest) m1) as [m3 e3].
      cbn [fst snd] in *.
      destruct IH as [I1 [I2 [I3 [I4 [I5 [I6 I7]]]]]].
      repeat split; try congruence;
        try (cbn [app map List.length repeat Canvas.type]; now rewrite I6);
        try (unfold Canvas.event_points in *;
             cbn [app flat_map Canvas.event_point Canvas.ev_x Canvas.ev_y
                    map fst];
             rewrite I7, point_eta; reflexivity).
Qed.

End CanvasFacts.

(** The path data visits the points in the order of the list: one [M]
    for the first point, then one [L] segment per further point. *)
Lemma pointsToPath_segments {coord : Type} (show : coord -> string)
    (p0 : Canvas.Point coord) (rest : list (Canvas.Point coord)) :
  Canvas.pointsToPath show (p0 :: rest) =
  fold_left String.append
    (map (fun p => (" L " ++ show (Canvas.x p) ++ " " ++ show (Canvas.y p))%string)
         rest)
    ("M " ++ show (Canvas.x p0) ++ " " ++ show (Canvas.y p0))%string.
Proof.
  unfold Canvas.pointsToPath.
  generalize ("M " ++ show (Canvas.x p0) ++ " " ++ show (Canvas.y p0))%string.
  induction rest as [|p ps IH]; intros acc; simpl; [reflexivity|].
  apply IH.
Qed.

(** What a stroke of the drawer records and sends, whatever the renders:
    the stroke appended on release is the open path of the last render,
    that is the touch-down point and the moves up to the last one that was
    rendered, while an event goes out for every touch, with its
    coordinates, in order. *)
Lemma stroke_recorded_as_rendered {coord : Type} (cp : option Player)
    (p0 : Canvas.Point coord) (t0 : Z)
    (moves : list (Canvas.Point coord * Z * bool)) (tend : Z)
    (m : Canvas.Mounted coord) :
  Canvas.isDrawing cp = true ->
  let res := Canvas.run cp (Canvas.stroke_steps p0 t0 moves tend) m in
  Canvas.localPaths (Canvas.state (fst res))
  = Canvas.localPaths (Canvas.state m)
    ++ [ {| Canvas.path_id := t0;
            Canvas.points := p0 :: Canvas.rendered_moves moves;
            Canvas.color := Canvas.selectedColor (Canvas.rendered m);
            Canvas.brushSize := Canvas.selectedBrush (Canvas.rendered m) |} ]
  /\ Canvas.currentPath (Canvas.state (fst res)) = None
  /\ map Canvas.type (snd res)
     = Canvas.ev_start :: repeat Canvas.ev_move (List.length moves)
         ++ [Canvas.ev_end]
  /\ Canvas.event_points (snd res) = p0 :: map (fun mv => fst (fst mv)) moves.
Proof.
  intros Hd res.
  set (cur := {| Canvas.path_id := t0;
                 Canvas.points := [p0];
                 Canvas.color := Canvas.selectedColor (Canvas.rendered m);
                 Canvas.brushSize := Canvas.selectedBrush (Canvas.rendered m) |}).
  set (st1 := {| Canvas.localPaths := Canvas.localPaths (Canvas.state m);
                 Canvas.currentPath := Some cur;
                 Canvas.selectedColor := Canvas.selectedColor (Canvas.state m);
                 Canvas.selectedBrush := Canvas.selectedBrush (Canvas.state m) |}).
  set (m1 := {| Canvas.state := st1; Canvas.rendered := st1 |}).
  assert (Hdown : Canvas.step cp
                    (Canvas.Handle (Canvas.TouchDown (Canvas.x p0) (Canvas.y p0) t0))
                    m
                  = (m1, [ {| Canvas.type := Canvas.ev_start;
                              Canvas.ev_x := Some (Canvas.x p0);
                              Canvas.ev_y := Some (Canvas.y p0);
                              Canvas.ev_color :=
                                Canvas.selectedColor (Canvas.rendered m);
                              Canvas.ev_brushSize :=
                                Canvas.selectedBrush (Canvas.rendered m);
                              Canvas.timestamp := t0 |} ])).
  { cbn [Canvas.step]. unfold Canvas.dispatch. rewrite Hd.
    unfold Canvas.handleTouchStart. rewrite Hd. simpl.
    unfold m1, st1, cur. now rewrite point_eta. }
  assert (Hcur : Canvas.currentPath (Canvas.state m1)
                 = Some {| Canvas.path_id := Canvas.path_id cur;
                           Canvas.points := Canvas.points cur ++ [];
                           Canvas.color := Canvas.color cur;
                           Canvas.brushSize := Canvas.brushSize cur |})
    by reflexivity.
  pose proof (run_drag_steps cp moves m1 cur [] [] Hd Hcur Hcur) as Hm.
  cbv zeta in Hm.
  assert (Hres : res
                 = (fst (Canvas.run cp [Canvas.Handle (Canvas.TouchUp tend)]
                           (fst (Canvas.run cp (Canvas.drag_steps moves) m1))),
                    snd (Canvas.step cp
                           (Canvas.Handle
                              (Canvas.TouchDown (Canvas.x p0) (Canvas.y p0) t0)) m)
                    ++ snd (Canvas.run cp (Canvas.drag_steps moves) m1)
                    ++ snd (Canvas.run cp [Canvas.Handle (Canvas.TouchUp tend)]
                              (fst (Canvas.run cp (Canvas.drag_steps moves) m1))))).
  { unfold res, Canvas.stroke_steps. cbn [Canvas.run]. rewrite Hdown.
    rewrite run_app. reflexivity. }
  clearbody res. subst res. rewrite Hdown.
  destruct (Canvas.run cp (Canvas.drag_steps moves) m1) as [m2 e2].
  cbn [fst snd] in *.
  destruct Hm as [H1 [H2 [H3 [H4 [H5 [H6 H7]]]]]].
  cbn [Canvas.run Canvas.step]. unfold Canvas.dispatch. rewrite Hd.
  unfold Canvas.handleTouchEnd. rewrite H5, Hd. simpl.
  rewrite H1. simpl. repeat split.
  - rewrite map_app, H6. reflexivity.
  - unfold Canvas.event_points in *. rewrite flat_map_app, H7, point_eta.
    simpl. now rewrite app_nil_r.
Qed.

(** When every move is rendered before the next event, the points the
    last render shows are all the points. *)
Lemma rendered_moves_all {coord : Type}
    (moves : list (Canvas.Point coord * Z)) :
  Canvas.rendered_moves (map (fun mv => (mv, true)) moves) = map fst moves.
Proof.
  unfold Canvas.rendered_moves.
  assert (H : forall acc : list (Canvas.Point coord),
             fold_left
               (fun (a : list (Canvas.Point coord) * list (Canvas.Point coord))
                    (mv : Canvas.Point coord * Z * bool) =>
                  let all := fst a ++ [fst (fst mv)] in
                  (all, if snd mv then all else snd a))
               (map (fun mv => (mv, true)) moves) (acc, acc)
             = (acc ++ map fst moves, acc ++ map fst moves)).
  { induction moves as [|mv rest IH]; intros acc; simpl.
    - now rewrite app_nil_r.
    - rewrite IH, <- app_assoc. reflexivity. }
  exact (f_equal snd (H [])).
Qed.

(** C8 at a stroke whose last move is not rendered when the finger lifts:
    the drawer touches down at (10, 20), moves to (11, 22), which is
    rendered, moves to (13, 25) and lifts before that move is rendered.
    Three events with the three points go out, but the stroke recorded has
    the first two points only. *)
Theorem stroke_loses_unrendered_move :
  Canvas.isDrawing (Some Sample.ann_drawing) = true
  /\ Canvas.event_points
       (snd (Canvas.run (Some Sample.ann_drawing) Sample.late_stroke
               Sample.blank_screen))
     = [Sample.pt 10 20; Sample.pt 11 22; Sample.pt 13 25]
  /\ map Canvas.points
       (Canvas.localPaths
          (Canvas.state
             (fst (Canvas.run (Some Sample.ann_drawing) Sample.late_stroke
                     Sample.blank_screen))))
     = [[Sample.pt 10 20; Sample.pt 11 22]]
  /\ Canvas.currentPath
       (Canvas.state
          (fst (Canvas.run (Some Sample.ann_drawing) Sample.late_stroke
                  Sample.blank_screen))) = None.
Proof. vm_compute. repeat split. Qed.

(** C7: undo removes the last stroke of the collection, which is the one
    most recently completed, and leaves the strokes before it as they were,
    in both the multiplayer screen ([handleUndo]) and the local game
    ([undoLast]); with no completed stroke the collection stays empty.  The
    stroke in progress is not touched. *)
Theorem undo_removes_last_stroke {coord : Type} (cp : option Player)
    (now now' : Z) (rd rd' st : Canvas.Drawing coord) (g : LocalGame.Game) :
  (forall before last,
      Canvas.localPaths st = before ++ [last] ->
      Canvas.localPaths (fst (Canvas.handleUndo now rd st)) = before)
  /\ (Canvas.localPaths st = [] ->
      Canvas.localPaths (fst (Canvas.handleUndo now rd st)) = [])
  /\ Canvas.currentPath (fst (Canvas.handleUndo now rd st))
     = Canvas.currentPath st
  /\ (forall cur,
      Canvas.isDrawing cp = true -> Canvas.currentPath rd = Some cur ->
      Canvas.localPaths
        (fst (Canvas.handleUndo now' rd'
                (fst (Canvas.handleTouchEnd cp now rd st))))
      = Canvas.localPaths st)
  /\ (forall before last,
      LocalGame.paths g = before ++ [last] ->
      LocalGame.paths (LocalGame.undoLast g) = before)
  /\ (LocalGame.paths g = [] -> LocalGame.paths (LocalGame.undoLast g) = [])
  /\ (LocalGame.renderedPath g <> EmptyString ->
      LocalGame.paths (LocalGame.undoLast (LocalGame.handleTouchEnd g))
      = LocalGame.paths g).
Proof.
  repeat split.
  - intros before last H. simpl. rewrite H. apply js_slice_drop_last.
  - intros H. simpl. now rewrite H.
  - intros cur Hd Hc. unfold Canvas.handleTouchEnd. rewrite Hc, Hd.
    simpl. apply js_slice_drop_last.
  - intros before last H. simpl. rewrite H. apply js_slice_drop_last.
  - intros H. simpl. now rewrite H.
  - intros H. unfold LocalGame.handleTouchEnd.
    destruct (LocalGame.renderedPath g) as [|c r]; [now destruct H|].
    simpl. apply js_slice_drop_last.
Qed.

Lemma undo_removes_last_stroke_witness :
  Canvas.localPaths
    (fst (Canvas.handleUndo 200 Sample.two_strokes Sample.two_strokes))
    = [Sample.stroke1]
  /\ Canvas.localPaths (fst (Canvas.handleUndo 200 Sample.blank Sample.blank))
     = [].
Proof.
  pose proof (@undo_removes_last_stroke Z None 200 200 Sample.two_strokes
                Sample.two_strokes Sample.two_strokes LocalGame.initial) as H2.
  pose proof (@undo_removes_last_stroke Z None 200 200 Sample.blank
                Sample.blank Sample.blank LocalGame.initial) as H0.
  split.
  - apply (proj1 H2 [Sample.stroke1] Sample.stroke2). reflexivity.
  - apply (proj1 (proj2 H0)). reflexivity.
Defined.

(** C10: when the current player is not drawing (or there is no current
    player), touch start, move and end leave [localPaths] and [currentPath]
    (the whole drawing state) unchanged and send no drawing event; the same
    holds for every sequence of canvas touches, tool-bar presses and
    renders, so only the drawer produces strokes or drawing events. *)
Theorem non_drawer_draws_nothing {coord : Type} (cp : option Player)
    (st : Canvas.Drawing coord) :
  Canvas.isDrawing cp = false ->
  (forall rd px py now, Canvas.handleTouchStart cp px py now rd st = (st, []))
  /\ (forall rd px py now, Canvas.handleTouchMove cp px py now rd st = (st, []))
  /\ (forall rd now, Canvas.handleTouchEnd cp now rd st = (st, []))
  /\ (forall rd steps,
      Canvas.state
        (fst (Canvas.run cp steps {| Canvas.state := st; Canvas.rendered := rd |}))
      = st
      /\ snd (Canvas.run cp steps
                {| Canvas.state := st; Canvas.rendered := rd |}) = []).
Proof.
  intros H. repeat split.
  - intros rd px py now. unfold Canvas.handleTouchStart. now rewrite H.
  - intros rd px py now. unfold Canvas.handleTouchMove. rewrite H.
    now destruct (Canvas.currentPath rd).
  - intros rd now. unfold Canvas.handleTouchEnd. rewrite H.
    now destruct (Canvas.currentPath rd).
  - now apply (run_not_drawing cp steps
                 {| Canvas.state := st; Canvas.rendered := rd |}).
  - now apply (run_not_drawing cp steps
                 {| Canvas.state := st; Canvas.rendered := rd |}).
Qed.

Lemma non_drawer_draws_nothing_witness :
  Canvas.isDrawing (Some Sample.bob) = false
  /\ snd (Canvas.run (Some Sample.bob)
            (Strokes.handled
               (Canvas.stroke_gesture (Sample.pt 10 20) 100
                  [(Sample.pt 11 22, 116)] 150 ++ [Canvas.PressUndo 160]))
            Sample.two_strokes_screen) = [].
Proof.
  split; [reflexivity|].
  apply (non_drawer_draws_nothing (Some Sample.bob) Sample.two_strokes eq_refl).
Defined.

(** ** Creating and joining a room *)

(** C9: when the backend is not configured, creating and joining a room
    show a notice and return [null] and [false]; the hook's action is not
    run, so the local store (room, players, error slot) and the backend are
    exactly as before, whatever the hook's actions would have done. *)
Theorem unconfigured_only_notifies {Backend : Type}
    (createRoom : string -> Session.World Backend
                  -> option string * Session.World Backend)
    (joinRoom : string -> string -> Session.World Backend
                -> bool * Session.World Backend)
    (code playerName : string) (w : Session.World Backend) :
  Session.configured w = false ->
  let created := Session.handleCreateRoom createRoom playerName w in
  let joined := Session.handleJoinRoom joinRoom code playerName w in
  (fst created = None
   /\ Session.local (snd created) = Session.local w
   /\ Session.backend (snd created) = Session.backend w
   /\ Session.notices (snd created)
      = Session.notices w ++ [Session.create_notice])
  /\ (fst joined = false
   /\ Session.local (snd joined) = Session.local w
   /\ Session.backend (snd joined) = Session.backend w
   /\ Session.notices (snd joined)
      = Session.notices w ++ [Session.join_notice])
  /\ error (Session.local (snd created)) = error (Session.local w)
  /\ error (Session.local (snd joined)) = error (Session.local w).
Proof.
  intros H created joined.
  unfold created, joined, Session.handleCreateRoom, Session.handleJoinRoom.
  rewrite H. simpl. repeat split; reflexivity.
Qed.

Lemma unconfigured_only_notifies_witness :
  Session.configured Sample.offline = false
  /\ fst (Session.handleCreateRoom Sample.writing_createRoom "Ann" Sample.offline)
     = None
  /\ Session.backend
       (snd (Session.handleJoinRoom Sample.writing_joinRoom "QXKD" "Bob"
               Sample.offline)) = [].
Proof.
  pose proof (unconfigured_only_notifies Sample.writing_createRoom
                Sample.writing_joinRoom "QXKD" "Bob" Sample.offline eq_refl)
    as Hj.
  pose proof (unconfigured_only_notifies Sample.writing_createRoom
                Sample.writing_joinRoom "QXKD" "Ann" Sample.offline eq_refl)
    as Hc.
  split; [reflexivity|]. split.
  - exact (proj1 (proj1 Hc)).
  - exact (proj1 (proj2 (proj2 (proj1 (proj2 Hj))))).
Defined.

(** ** The local game *)

Lemma nth_error_replace_at_eq l : forall i v,
  (i < List.length l)%nat -> nth_error (LocalGame.replace_at l i v) i = Some v.
Proof.
  induction l as [|a r IH]; intros i v H; simpl in H; [lia|].
  destruct i as [|k]; simpl; [reflexivity|]. apply IH. lia.
Qed.

Lemma nth_error_replace_at_ne l : forall i j v,
  i <> j -> nth_error (LocalGame.replace_at l i v) j = nth_error l j.
Proof.
  induction l as [|a r IH]; intros i j v H; [reflexivity|].
  destruct i as [|k], j as [|m]; simpl; try reflexivity; [congruence|].
  apply IH. congruence.
Qed.

Lemma length_replace_at l : forall i v,
  List.length (LocalGame.replace_at l i v) = List.length l.
Proof.
  induction l as [|a r IH]; intros i v; [reflexivity|].
  destruct i; simpl; [reflexivity|]. now rewrite IH.
Qed.

Lemma array_get_spread l i :
  LocalGame.array_get (LocalGame.spread l) i = LocalGame.array_get l i.
Proof.
  unfold LocalGame.array_get, LocalGame.spread. rewrite nth_error_map.
  destruct (nth_error l i) as [[]|]; reflexivity.
Qed.

(** A correct guess while the drawing team's index is inside the score
    array: that team's score goes up by one, the other slots and the length
    of the array are unchanged, the turn moves to the next team and the
    round number goes up by one. *)
Lemma handleGuessCorrect_in_range (g : LocalGame.Game) (n : Z) :
  nth_error (LocalGame.scores g) (LocalGame.currentTeam g)
    = Some (LocalGame.num n) ->
  let g' := LocalGame.handleGuessCorrect g in
  nth_error (LocalGame.scores g') (LocalGame.currentTeam g)
    = Some (LocalGame.num (n + 1))
  /\ (forall j, j <> LocalGame.currentTeam g ->
        LocalGame.array_get (LocalGame.scores g') j
        = LocalGame.array_get (LocalGame.scores g) j)
  /\ List.length (LocalGame.scores g') = List.length (LocalGame.scores g)
  /\ LocalGame.currentTeam g'
     = ((LocalGame.currentTeam g + 1)
          mod LocalGame.count_of (LocalGame.teamCount (LocalGame.settings g)))%nat
  /\ LocalGame.roundNumber g' = LocalGame.roundNumber g + 1
  /\ LocalGame.gameState g' = LocalGame.st_menu.
Proof.
  intros H g'. unfold g', LocalGame.handleGuessCorrect. simpl.
  assert (Hlt : (LocalGame.currentTeam g
                 < List.length (LocalGame.spread (LocalGame.scores g)))%nat).
  { unfold LocalGame.spread. rewrite length_map.
    apply nth_error_Some. congruence. }
  assert (Hget : LocalGame.array_get (LocalGame.spread (LocalGame.scores g))
                   (LocalGame.currentTeam g) = LocalGame.num n).
  { rewrite array_get_spread. unfold LocalGame.array_get. now rewrite H. }
  unfold LocalGame.array_set.
  apply Nat.ltb_lt in Hlt. rewrite Hlt, Hget. apply Nat.ltb_lt in Hlt.
  repeat split.
  - now apply nth_error_replace_at_eq.
  - intros j Hj. unfold LocalGame.array_get at 1.
    rewrite nth_error_replace_at_ne by congruence.
    apply (array_get_spread (LocalGame.scores g) j).
  - rewrite length_replace_at. unfold LocalGame.spread. apply length_map.
Qed.

(** C6 at a state the game reaches: after a three-team game has been
    played to the third team and the settings were put back to two teams,
    the score array has two slots while the drawing team's index is still 2.
    A correct guess then writes [NaN] past the end of the array: no team's
    score goes up by one.  The turn and the round number move on as
    usual. *)
Theorem guess_after_team_change_scores_nothing :
  LocalGame.gameState (LocalGame.play Sample.shrink_trace LocalGame.initial)
    = LocalGame.st_drawing
  /\ LocalGame.scores (LocalGame.play Sample.shrink_trace LocalGame.initial)
     = [LocalGame.num 0; LocalGame.num 0]
  /\ LocalGame.currentTeam (LocalGame.play Sample.shrink_trace LocalGame.initial)
     = 2%nat
  /\ LocalGame.scores
       (LocalGame.press LocalGame.GotIt
          (LocalGame.play Sample.shrink_trace LocalGame.initial))
     = [LocalGame.num 0; LocalGame.num 0; LocalGame.NaN]
  /\ map LocalGame.as_number
       (LocalGame.scores
          (LocalGame.press LocalGame.GotIt
             (LocalGame.play Sample.shrink_trace LocalGame.initial)))
     = [Some 0; Some 0; None]
  /\ LocalGame.currentTeam
       (LocalGame.press LocalGame.GotIt
          (LocalGame.play Sample.shrink_trace LocalGame.initial)) = 1%nat
  /\ LocalGame.roundNumber
       (LocalGame.press LocalGame.GotIt
          (LocalGame.play Sample.shrink_trace LocalGame.initial))
     = LocalGame.roundNumber
         (LocalGame.play Sample.shrink_trace LocalGame.initial) + 1.
Proof. vm_compute. repeat split. Qed.

(** In the default two-team game the first correct guess gives team 0 its
    point and passes the turn to team 1. *)
Example first_guess_scores_one :
  LocalGame.scores (LocalGame.press LocalGame.GotIt Sample.first_round)
    = [LocalGame.num 1; LocalGame.num 0]
  /\ LocalGame.currentTeam (LocalGame.press LocalGame.GotIt Sample.first_round)
     = 1%nat
  /\ LocalGame.roundNumber (LocalGame.press LocalGame.GotIt Sample.first_round)
     = 2.
Proof.
  vm_compute. repeat split.
Qed.

(** * Further properties of the code *)

(** ** The round timer, continued *)

Lemma tick_keeps_bounds r cp st :
  0 <= timer_seconds (settings r) ->
  Timer.timerRef st = true ->
  0 <= Timer.timeRemaining st <= timer_seconds (settings r) ->
  0 <= Timer.timeRemaining (fst (Timer.interval_tick r cp st))
    <= timer_seconds (settings r).
Proof.
  intros HD Hi Hb. rewrite (interval_tick_value r cp st Hi).
  destruct (Timer.timeRemaining st <=? 1) eqn:E.
  - lia.
  - apply Z.leb_gt in E. lia.
Qed.

Lemma run_ticks_keeps_bounds n : forall r cp st,
  0 <= timer_seconds (settings r) ->
  Timer.timerRef st = true ->
  0 <= Timer.timeRemaining st <= timer_seconds (settings r) ->
  0 <= Timer.timeRemaining (fst (Timer.run_ticks n r cp st))
    <= timer_seconds (settings r).
Proof.
  induction n as [|k IH]; intros r cp st HD Hi Hb; simpl; [exact Hb|].
  pose proof (tick_keeps_bounds r cp st HD Hi Hb) as Hb1.
  pose proof (interval_tick_installed r cp st Hi) as Hi1.
  destruct (Timer.interval_tick r cp st) as [st1 c1]. simpl in Hb1, Hi1.
  specialize (IH r cp st1 HD Hi1 Hb1).
  destruct (Timer.run_ticks k r cp st1) as [st2 c2]. exact IH.
Qed.

(** While the room is playing, with a duration that is not negative and a
    round that did not start in the client's future, the countdown stays
    between 0 and the duration, at the effect and after every tick. *)
Theorem countdown_within_duration (r : Room) (cp : option Player)
    (now : Z) (n : nat) (st0 : Timer.TimerState) :
  status r = playing ->
  0 <= timer_seconds (settings r) ->
  (forall T0, round_start_time r = Some T0 -> T0 <= now) ->
  0 <= Timer.timeRemaining (fst (Timer.client_run r cp now n st0))
    <= timer_seconds (settings r).
Proof.
  intros Hs HD Hpast. unfold Timer.client_run.
  rewrite (timer_effect_playing r now st0 Hs).
  apply run_ticks_keeps_bounds; [exact HD | reflexivity |]. simpl.
  unfold Timer.remaining. destruct (round_start_time r) as [T0|] eqn:E.
  - specialize (Hpast T0 eq_refl).
    assert (0 <= (now - T0) / 1000) by (apply Z.div_pos; lia). lia.
  - lia.
Qed.

Lemma countdown_within_duration_witness :
  0 <= Timer.timeRemaining
         (fst (Timer.client_run Sample.room60 (Some Sample.ann) 1012345 100
                 Sample.idle)) <= 60.
Proof.
  apply (countdown_within_duration Sample.room60 (Some Sample.ann) 1012345 100
           Sample.idle eq_refl).
  - vm_compute. discriminate.
  - intros T0 H. injection H as <-. lia.
Defined.

Lemma run_ticks_quiet n : forall r cp v,
  Z.of_nat n < v ->
  Timer.run_ticks n r cp {| Timer.timeRemaining := v; Timer.timerRef := true |}
  = ({| Timer.timeRemaining := v - Z.of_nat n; Timer.timerRef := true |}, []).
Proof.
  induction n as [|k IH]; intros r cp v Hv.
  - simpl. now rewrite Z.sub_0_r.
  - cbn [Timer.run_ticks]. unfold Timer.interval_tick, Timer.tick_update.
    cbn [Timer.timerRef Timer.timeRemaining].
    destruct (v <=? 1) eqn:E; [apply Z.leb_le in E; lia|].
    rewrite (IH r cp (v - 1)) by lia.
    simpl. do 2 f_equal. lia.
Qed.

(** From a countdown of [v >= 1] seconds, the first [v - 1] ticks submit
    nothing and bring the countdown to 1; the tick after them resets it to
    the duration, and is the one at which the host submits [endRound]. *)
Theorem round_end_after_countdown (r : Room) (cp : option Player)
    (now : Z) (st0 : Timer.TimerState) :
  status r = playing ->
  1 <= Timer.remaining r now ->
  let v := Timer.remaining r now in
  Timer.client_run r cp now (Z.to_nat (v - 1)) st0
    = ({| Timer.timeRemaining := 1; Timer.timerRef := true |}, [])
  /\ Timer.client_run r cp now (Z.to_nat v) st0
    = ({| Timer.timeRemaining := timer_seconds (settings r);
          Timer.timerRef := true |},
       if opt_flag is_host cp then [Timer.endRound] else []).
Proof.
  intros Hs Hv v. unfold Timer.client_run.
  rewrite (timer_effect_playing r now st0 Hs). fold v.
  assert (Hq : Timer.run_ticks (Z.to_nat (v - 1)) r cp
                 {| Timer.timeRemaining := v; Timer.timerRef := true |}
               = ({| Timer.timeRemaining := 1; Timer.timerRef := true |}, [])).
  { rewrite run_ticks_quiet by (unfold v; lia). do 2 f_equal. unfold v. lia. }
  split; [exact Hq|].
  replace (Z.to_nat v) with (Z.to_nat (v - 1) + 1)%nat by (unfold v; lia).
  generalize dependent (Z.to_nat (v - 1)). intros k Hk.
  revert Hk. generalize {| Timer.timeRemaining := v; Timer.timerRef := true |}.
  induction k as [|k IH]; intros s Hk.
  - simpl in Hk. injection Hk as ->. simpl.
    destruct (opt_flag is_host cp); reflexivity.
  - replace (S k + 1)%nat with (S (k + 1)) by lia.
    cbn [Timer.run_ticks] in *.
    destruct (Timer.interval_tick r cp s) as [s1 c1].
    destruct (Timer.run_ticks k r cp s1) as [s2 c2] eqn:E2.
    injection Hk as -> Hc. apply app_eq_nil in Hc. destruct Hc as [-> ->].
    rewrite (IH s1 E2). reflexivity.
Qed.

Lemma round_end_after_countdown_witness :
  Timer.client_run Sample.room60 (Some Sample.ann) 1012345 48 Sample.idle
  = ({| Timer.timeRemaining := 60; Timer.timerRef := true |}, [Timer.endRound]).
Proof.
  apply (round_end_after_countdown Sample.room60 (Some Sample.ann) 1012345
           Sample.idle eq_refl).
  vm_compute. discriminate.
Defined.

Lemma run_ticks_cleared n : forall r cp st,
  Timer.timerRef st = false -> Timer.run_ticks n r cp st = (st, []).
Proof.
  induction n as [|k IH]; intros r cp st H; [reflexivity|].
  cbn [Timer.run_ticks]. unfold Timer.interval_tick. rewrite H.
  now rewrite (IH r cp st H).
Qed.

(** When there is no room, or its status is not [playing], the effect
    removes the interval: the countdown keeps its value and no tick
    submits anything. *)
Theorem timer_stopped_outside_play (room : option Room) (r : Room)
    (cp : option Player) (now : Z) (n : nat) (st0 : Timer.TimerState) :
  (forall r0, room = Some r0 -> status r0 <> playing) ->
  Timer.timerRef (Timer.timer_effect room now st0) = false
  /\ Timer.timeRemaining
       (fst (Timer.run_ticks n r cp (Timer.timer_effect room now st0)))
     = Timer.timeRemaining st0
  /\ snd (Timer.run_ticks n r cp (Timer.timer_effect room now st0)) = [].
Proof.
  intros H.
  assert (E : Timer.timer_effect room now st0
              = {| Timer.timeRemaining := Timer.timeRemaining st0;
                   Timer.timerRef := false |}).
  { unfold Timer.timer_effect. destruct room as [r0|]; [|reflexivity].
    specialize (H r0 eq_refl). destruct (status r0); try reflexivity.
    now destruct H. }
  rewrite E, run_ticks_cleared by reflexivity. now repeat split.
Qed.

Lemma timer_stopped_outside_play_witness :
  snd (Timer.run_ticks 500 Sample.lobby_room (Some Sample.ann)
         (Timer.timer_effect (Some Sample.lobby_room) 1012345 Sample.idle)) = [].
Proof.
  apply (timer_stopped_outside_play (Some Sample.lobby_room) Sample.lobby_room
           (Some Sample.ann) 1012345 500 Sample.idle).
  intros r0 H. injection H as <-. discriminate.
Defined.

(** ** Screen navigation *)

(** The render guard and the navigation effect lead to the same client in
    either order.  On it both are at rest, the lobby and the game are only
    shown to a client that has a room and a current player, a lobby whose
    room is playing has been left for the game, and the store is as it
    was. *)
Theorem navigation_settles (c : Client) :
  let c' := Navigation.settle c in
  Navigation.renderGuard (Navigation.autoNavigate c) = c'
  /\ Navigation.autoNavigate c' = c'
  /\ Navigation.renderGuard c' = c'
  /\ (screen c' = lobby \/ screen c' = game ->
      room (store c') <> None /\ currentPlayer (store c') <> None)
  /\ (screen c' = lobby ->
      forall r, room (store c') = Some r -> status r <> playing)
  /\ store c' = store c.
Proof.
  destruct c as [sc [rm ps cp er]].
  unfold Navigation.settle, Navigation.renderGuard, Navigation.autoNavigate.
  destruct sc, rm as [r|], cp as [p|]; simpl;
    try (destruct (status r) eqn:E; simpl; try rewrite E);
    repeat split; intros; try reflexivity; try discriminate;
    try match goal with
        | H : _ \/ _ |- _ => destruct H as [H|H]; discriminate H
        end;
    congruence.
Qed.

(** ** The lobby, continued *)

Lemma filter_three_way {A} (f g h : A -> bool) (l : list A) :
  (forall a, (f a = true /\ g a = false /\ h a = false)
             \/ (f a = false /\ g a = true /\ h a = false)
             \/ (f a = false /\ g a = false /\ h a = true)) ->
  (List.length (filter f l) + List.length (filter g l)
   + List.length (filter h l) = List.length l)%nat.
Proof.
  intros H. induction l as [|a r IH]; [reflexivity|]. simpl.
  destruct (H a) as [[-> [-> ->]] | [[-> [-> ->]] | [-> [-> ->]]]];
    simpl; lia.
Qed.

(** The three lists of the lobby split the players: their lengths add up
    to the number of players, every player is in exactly one of them, and
    each list holds players of its own team only. *)
Theorem lobby_lists_partition (ps : list Player) (p : Player) :
  (List.length (Lobby.team1Players ps) + List.length (Lobby.team2Players ps)
   + List.length (Lobby.unassignedPlayers ps) = List.length ps)%nat
  /\ (In p (Lobby.team1Players ps) <-> In p ps /\ team p = Some team1)
  /\ (In p (Lobby.team2Players ps) <-> In p ps /\ team p = Some team2)
  /\ (In p (Lobby.unassignedPlayers ps) <-> In p ps /\ team p = None)
  /\ ~ (In p (Lobby.team1Players ps) /\ In p (Lobby.team2Players ps))
  /\ ~ (In p (Lobby.team1Players ps) /\ In p (Lobby.unassignedPlayers ps))
  /\ ~ (In p (Lobby.team2Players ps) /\ In p (Lobby.unassignedPlayers ps)).
Proof.
  unfold Lobby.team1Players, Lobby.team2Players, Lobby.unassignedPlayers.
  split.
  - apply filter_three_way. intros a. unfold on_team.
    destruct (team a) as [[]|]; simpl; auto.
  - rewrite !filter_In, !on_team_iff.
    assert (Hn : forall q : Player,
               match team q with None => true | Some _ => false end = true
               <-> team q = None).
    { intros q. destruct (team q); split; congruence. }
    rewrite Hn. repeat split; try tauto;
      intros [[_ H1] [_ H2]]; congruence.
Qed.

(** The length test of [allReady] is implied by the two team tests: the
    start gate is the host flag, everybody ready, and both teams
    non-empty. *)
Theorem canStart_without_length_test (cp : option Player) (ps : list Player) :
  Lobby.canStart cp ps
  = opt_flag is_host cp && forallb is_ready ps
    && (1 <=? List.length (Lobby.team1Players ps))%nat
    && (1 <=? List.length (Lobby.team2Players ps))%nat.
Proof.
  unfold Lobby.canStart, Lobby.allReady.
  destruct (2 <=? List.length ps)%nat eqn:E; [reflexivity|].
  apply Nat.leb_gt in E.
  pose proof (proj1 (lobby_lists_partition ps
                       {| id := ""; name := ""; team := None; is_host := false;
                          is_ready := false; is_drawing := false; score := 0 |}))
    as Hsum.
  destruct (1 <=? List.length (Lobby.team1Players ps))%nat eqn:E1;
    destruct (1 <=? List.length (Lobby.team2Players ps))%nat eqn:E2;
    rewrite ?andb_false_r, ?andb_false_l; try reflexivity.
  apply Nat.leb_le in E1, E2. lia.
Qed.

(** ** The canvas, continued *)

Section CanvasMore.

Context {coord : Type}.

Implicit Types (st : Canvas.Drawing coord) (m : Canvas.Mounted coord)
  (cp : option Player).

Lemma run_cons cp (s : Canvas.Step coord) (rest : list (Canvas.Step coord)) m :
  Canvas.run cp (s :: rest) m
  = (fst (Canvas.run cp rest (fst (Canvas.step cp s m))),
     snd (Canvas.step cp s m)
     ++ snd (Canvas.run cp rest (fst (Canvas.step cp s m)))).
Proof.
  cbn [Canvas.run]. destruct (Canvas.step cp s m) as [m1 e1]. cbn [fst snd].
  now destruct (Canvas.run cp rest m1).
Qed.

Lemma step_no_open_path cp s m :
  Canvas.currentPath (Canvas.state m) = None ->
  Canvas.currentPath (Canvas.rendered m) = None ->
  Strokes.drag_step s = true \/ (exists now, s = Canvas.Handle (Canvas.TouchUp now)) ->
  Canvas.state (fst (Canvas.step cp s m)) = Canvas.state m
  /\ Canvas.currentPath (Canvas.rendered (fst (Canvas.step cp s m))) = None
  /\ snd (Canvas.step cp s m) = [].
Proof.
  intros Hs Hr Hk.
  assert (Hup : forall now,
             Canvas.dispatch cp (Canvas.TouchUp now) (Canvas.rendered m)
               (Canvas.state m) = (Canvas.state m, [])).
  { intros now. unfold Canvas.dispatch, Canvas.handleTouchEnd. rewrite Hr.
    now destruct (Canvas.isDrawing cp). }
  destruct Hk as [Hk | [now ->]].
  - destruct s as [[px py now|px py now|now|now|now]|]; try discriminate Hk.
    + cbn [Canvas.step]. unfold Canvas.dispatch, Canvas.handleTouchMove.
      rewrite Hr. destruct (Canvas.isDrawing cp); simpl; auto.
    + simpl. auto.
  - cbn [Canvas.step]. rewrite Hup. simpl. auto.
Qed.

Lemma run_no_open_path cp steps : forall m,
  Canvas.currentPath (Canvas.state m) = None ->
  Canvas.currentPath (Canvas.rendered m) = None ->
  Forall (fun s => Strokes.drag_step s = true
                   \/ exists now, s = Canvas.Handle (Canvas.TouchUp now)) steps ->
  Canvas.state (fst (Canvas.run cp steps m)) = Canvas.state m
  /\ snd (Canvas.run cp steps m) = [].
Proof.
  induction steps as [|s rest IH]; intros m Hs Hr Hall; [simpl; auto|].
  inversion Hall as [|s' rest' Hk Hrest]; subst.
  destruct (step_no_open_path cp s m Hs Hr Hk) as [S1 [S2 S3]].
  cbn [Canvas.run]. destruct (Canvas.step cp s m) as [m1 e1].
  cbn [fst snd] in *.
  destruct (IH m1) as [I1 I2]; [congruence | exact S2 | exact Hrest |].
  destruct (Canvas.run cp rest m1) as [m2 e2]. cbn [fst snd] in *.
  split; [congruence | now rewrite S3, I2].
Qed.

End CanvasMore.

(** Moves and a release that arrive while no stroke is open, in the state
    and in the last render, are ignored: the drawing state is unchanged and
    nothing is sent, whatever renders come in between.  In particular,
    after the drawer clears the canvas in the middle of a stroke, the rest
    of that stroke is dropped: only the [clear] event goes out and the
    canvas stays empty. *)
Theorem touches_without_open_stroke_ignored {coord : Type}
    (cp : option Player) (steps : list (Canvas.Step coord))
    (tclear tend : Z) (m : Canvas.Mounted coord) :
  forallb Strokes.drag_step steps = true ->
  (Canvas.currentPath (Canvas.state m) = None ->
   Canvas.currentPath (Canvas.rendered m) = None ->
     Canvas.state
       (fst (Canvas.run cp (steps ++ [Canvas.Handle (Canvas.TouchUp tend)]) m))
     = Canvas.state m
     /\ snd (Canvas.run cp (steps ++ [Canvas.Handle (Canvas.TouchUp tend)]) m)
        = [])
  /\ (Canvas.isDrawing cp = true ->
      let res := Canvas.run cp (Canvas.Handle (Canvas.PressClear tclear)
                                  :: steps
                                  ++ [Canvas.Handle (Canvas.TouchUp tend)]) m in
      Canvas.localPaths (Canvas.state (fst res)) = []
      /\ Canvas.currentPath (Canvas.state (fst res)) = None
      /\ map Canvas.type (snd res) = [Canvas.ev_clear]).
Proof.
  intros Hdrags.
  assert (Hall : Forall (fun s => Strokes.drag_step s = true
                                  \/ exists now,
                                       s = Canvas.Handle (Canvas.TouchUp now))
                        (steps ++ [Canvas.Handle (Canvas.TouchUp tend)])).
  { apply Forall_app. split.
    - apply Forall_forall. intros s Hin. left.
      rewrite forallb_forall in Hdrags. now apply Hdrags.
    - constructor; [right; eauto | constructor]. }
  split.
  - intros Hs Hr. now apply run_no_open_path.
  - intros Hd res.
    assert (Hres : res
                   = (fst (Canvas.run cp
                             (steps ++ [Canvas.Handle (Canvas.TouchUp tend)])
                             (fst (Canvas.step cp
                                     (Canvas.Handle (Canvas.PressClear tclear))
                                     m))),
                      snd (Canvas.step cp
                             (Canvas.Handle (Canvas.PressClear tclear)) m)
                      ++ snd (Canvas.run cp
                                (steps ++ [Canvas.Handle (Canvas.TouchUp tend)])
                                (fst (Canvas.step cp
                                        (Canvas.Handle
                                           (Canvas.PressClear tclear)) m))))).
    { unfold res. apply run_cons. }
    assert (Hstep : Canvas.step cp (Canvas.Handle (Canvas.PressClear tclear)) m
                    = (Canvas.mount
                         (fst (Canvas.handleClear tclear (Canvas.rendered m)
                                 (Canvas.state m))),
                       snd (Canvas.handleClear tclear (Canvas.rendered m)
                              (Canvas.state m)))).
    { cbn [Canvas.step]. unfold Canvas.dispatch. rewrite Hd. reflexivity. }
    rewrite Hstep in Hres. cbn [fst snd] in Hres.
    destruct (run_no_open_path cp _
                (Canvas.mount
                   (fst (Canvas.handleClear tclear (Canvas.rendered m)
                           (Canvas.state m))))
                eq_refl eq_refl Hall) as [R1 R2].
    rewrite Hres. cbn [fst snd]. rewrite R1, R2. simpl. now repeat split.
Qed.

Lemma touches_without_open_stroke_ignored_witness :
  snd (Canvas.run (Some Sample.ann_drawing)
         (Canvas.drag_steps [(Sample.pt 3 4, 10, false)]
          ++ [Canvas.Handle (Canvas.TouchUp 20)])
         Sample.two_strokes_screen) = []
  /\ Canvas.localPaths
       (Canvas.state
          (fst (Canvas.run (Some Sample.ann_drawing)
                  (Canvas.Handle (Canvas.PressClear 5)
                     :: Canvas.drag_steps [(Sample.pt 3 4, 10, false)]
                     ++ [Canvas.Handle (Canvas.TouchUp 20)])
                  Sample.two_strokes_screen))) = [].
Proof.
  pose proof (touches_without_open_stroke_ignored (Some Sample.ann_drawing)
                (Canvas.drag_steps [(Sample.pt 3 4, 10, false)]) 5 20
                Sample.two_strokes_screen eq_refl) as [H1 H2].
  split.
  - apply (H1 eq_refl eq_refl).
  - apply (H2 eq_refl).
Defined.

Lemma step_touch_extends {coord : Type} (cp : option Player)
    (s : Canvas.Step coord) (m : Canvas.Mounted coord) :
  Strokes.touch_step s = true ->
  exists added,
    Canvas.localPaths (Canvas.state (fst (Canvas.step cp s m)))
      = Canvas.localPaths (Canvas.state m) ++ added
    /\ (List.length added <= if Strokes.release_step s then 1 else 0)%nat.
Proof.
  intros Ht.
  destruct s as [g|]; [|exists []; simpl; rewrite app_nil_r; split;
                         [reflexivity | lia]].
  cbn [Canvas.step]. unfold Canvas.dispatch.
  destruct (Canvas.isDrawing cp) eqn:Hd;
    [|exists []; simpl; rewrite app_nil_r;
      split; [reflexivity|destruct (Strokes.is_release g); lia]].
  destruct g as [px py now|px py now|now|now|now]; try discriminate Ht.
  - exists []. unfold Canvas.handleTouchStart. rewrite Hd. simpl.
    rewrite app_nil_r. split; [reflexivity|lia].
  - exists []. unfold Canvas.handleTouchMove. rewrite Hd.
    destruct (Canvas.currentPath (Canvas.rendered m)); simpl;
      rewrite app_nil_r; (split; [reflexivity|lia]).
  - unfold Canvas.handleTouchEnd. rewrite Hd.
    destruct (Canvas.currentPath (Canvas.rendered m)) as [cur|]; simpl.
    + exists [cur]. split; [reflexivity|simpl; lia].
    + exists []. rewrite app_nil_r. split; [reflexivity|simpl; lia].
Qed.

(** Touches never change a completed stroke: over any sequence of touch
    gestures and renders (no undo, no clear) the strokes recorded before
    are still there, in the same order, at the front of the collection, and
    at most one stroke is added per release. *)
Theorem completed_strokes_kept_by_touches {coord : Type}
    (cp : option Player) (steps : list (Canvas.Step coord))
    (m : Canvas.Mounted coord) :
  forallb Strokes.touch_step steps = true ->
  exists added,
    Canvas.localPaths (Canvas.state (fst (Canvas.run cp steps m)))
      = Canvas.localPaths (Canvas.state m) ++ added
    /\ (List.length added
        <= List.length (filter Strokes.release_step steps))%nat.
Proof.
  revert m. induction steps as [|s rest IH]; intros m Hall.
  - exists []. simpl. now rewrite app_nil_r.
  - simpl in Hall. apply andb_true_iff in Hall. destruct Hall as [Hg Hrest].
    destruct (step_touch_extends cp s m Hg) as [a1 [Ha1 Hl1]].
    cbn [Canvas.run]. destruct (Canvas.step cp s m) as [m1 e1].
    simpl in Ha1. destruct (IH m1 Hrest) as [a2 [Ha2 Hl2]].
    destruct (Canvas.run cp rest m1) as [m2 e2]. simpl in Ha2. simpl fst.
    exists (a1 ++ a2). split.
    + now rewrite Ha2, Ha1, app_assoc.
    + rewrite length_app. simpl filter.
      destruct (Strokes.release_step s); simpl; lia.
Qed.

Lemma completed_strokes_kept_by_touches_witness :
  exists added,
    Canvas.localPaths
      (Canvas.state
         (fst (Canvas.run (Some Sample.ann_drawing) Sample.late_stroke
                 Sample.two_strokes_screen)))
    = [Sample.stroke1; Sample.stroke2] ++ added
    /\ (List.length added <= 1)%nat.
Proof.
  apply (completed_strokes_kept_by_touches (Some Sample.ann_drawing)
           Sample.late_stroke Sample.two_strokes_screen eq_refl).
Defined.

Lemma removelast_firstn_pred {A} (l : list A) :
  removelast l = firstn (List.length l - 1) l.
Proof.
  induction l as [|a l' _] using rev_ind; [reflexivity|].
  rewrite removelast_last, length_app. simpl.
  replace (List.length l' + 1 - 1)%nat with (List.length l') by lia.
  rewrite firstn_app, firstn_all, Nat.sub_diag. simpl. now rewrite app_nil_r.
Qed.

Lemma run_undo_drawer {coord : Type} (cp : option Player) (now : Z)
    (steps : list (Canvas.Step coord)) (m : Canvas.Mounted coord) :
  Canvas.isDrawing cp = true ->
  Canvas.run cp (Canvas.Handle (Canvas.PressUndo now) :: steps) m
  = (fst (Canvas.run cp steps
            (Canvas.mount
               (fst (Canvas.handleUndo now (Canvas.rendered m) (Canvas.state m))))),
     snd (Canvas.handleUndo now (Canvas.rendered m) (Canvas.state m))
     ++ snd (Canvas.run cp steps
               (Canvas.mount
                  (fst (Canvas.handleUndo now (Canvas.rendered m)
                          (Canvas.state m)))))).
Proof.
  intros Hd. rewrite run_cons.
  assert (Hstep : Canvas.step cp (Canvas.Handle (Canvas.PressUndo now)) m
                  = (Canvas.mount
                       (fst (Canvas.handleUndo now (Canvas.rendered m)
                               (Canvas.state m))),
                     snd (Canvas.handleUndo now (Canvas.rendered m)
                            (Canvas.state m)))).
  { cbn [Canvas.step]. unfold Canvas.dispatch. rewrite Hd. reflexivity. }
  now rewrite Hstep.
Qed.

(** [n] presses on undo by the drawer remove the last [n] strokes (all of
    them when there are fewer), leave the stroke in progress alone, and
    send [n] undo events, also when no stroke is left to remove. *)
Theorem undo_n_times {coord : Type} (cp : option Player) (now : Z) (n : nat)
    (m : Canvas.Mounted coord) :
  Canvas.isDrawing cp = true ->
  let res := Canvas.run cp (repeat (Canvas.Handle (Canvas.PressUndo now)) n) m in
  Canvas.localPaths (Canvas.state (fst res))
    = firstn (List.length (Canvas.localPaths (Canvas.state m)) - n)
        (Canvas.localPaths (Canvas.state m))
  /\ Canvas.currentPath (Canvas.state (fst res))
     = Canvas.currentPath (Canvas.state m)
  /\ map Canvas.type (snd res) = repeat Canvas.ev_undo n.
Proof.
  intros Hd. revert m. induction n as [|k IH]; intros m res.
  - unfold res. simpl. rewrite Nat.sub_0_r, firstn_all. now repeat split.
  - unfold res. cbn [repeat]. rewrite (run_undo_drawer cp now _ m Hd).
    pose proof (IH (Canvas.mount
                      (fst (Canvas.handleUndo now (Canvas.rendered m)
                              (Canvas.state m))))) as IH1.
    cbv zeta in IH1. destruct IH1 as [H1 [H2 H3]]. cbn [fst snd].
    rewrite H1, H2, map_app, H3. simpl. repeat split.
    rewrite js_slice_removelast, removelast_firstn_pred.
    rewrite length_firstn, firstn_firstn. f_equal. lia.
Qed.

Lemma undo_n_times_witness :
  Canvas.localPaths
    (Canvas.state
       (fst (Canvas.run (Some Sample.ann_drawing)
               (repeat (Canvas.Handle (Canvas.PressUndo 7)) 3)
               Sample.two_strokes_screen))) = []
  /\ List.length
       (snd (Canvas.run (Some Sample.ann_drawing)
               (repeat (Canvas.Handle (Canvas.PressUndo 7)) 3)
               Sample.two_strokes_screen)) = 3%nat.
Proof.
  pose proof (undo_n_times (Some Sample.ann_drawing) 7 3
                Sample.two_strokes_screen eq_refl) as [H1 [_ H3]].
  split.
  - etransitivity; [exact H1 | reflexivity].
  - rewrite <- (length_map (@Canvas.type Z)).
    etransitivity; [exact (f_equal (@List.length _) H3) | reflexivity].
Defined.

Lemma step_style {coord : Type} (cp : option Player)
    (s : Canvas.Step coord) (m : Canvas.Mounted coord) :
  Canvas.selectedColor (Canvas.state (fst (Canvas.step cp s m)))
    = Canvas.selectedColor (Canvas.state m)
  /\ Canvas.selectedBrush (Canvas.state (fst (Canvas.step cp s m)))
     = Canvas.selectedBrush (Canvas.state m)
  /\ ((Canvas.selectedColor (Canvas.rendered (fst (Canvas.step cp s m)))
         = Canvas.selectedColor (Canvas.rendered m)
       /\ Canvas.selectedBrush (Canvas.rendered (fst (Canvas.step cp s m)))
          = Canvas.selectedBrush (Canvas.rendered m))
      \/ (Canvas.selectedColor (Canvas.rendered (fst (Canvas.step cp s m)))
            = Canvas.selectedColor (Canvas.state m)
          /\ Canvas.selectedBrush (Canvas.rendered (fst (Canvas.step cp s m)))
             = Canvas.selectedBrush (Canvas.state m)))
  /\ Forall (fun e => Canvas.ev_color e = Canvas.selectedColor (Canvas.rendered m)
                      /\ Canvas.ev_brushSize e
                         = Canvas.selectedBrush (Canvas.rendered m))
            (snd (Canvas.step cp s m)).
Proof.
  destruct s as [g|]; [|simpl; auto 10].
  cbn [Canvas.step]. unfold Canvas.dispatch.
  destruct (Canvas.isDrawing cp) eqn:Hd;
    [|destruct (Canvas.continuous g); simpl; auto 10].
  destruct g as [px py now|px py now|now|now|now]; cbn [Canvas.continuous].
  - unfold Canvas.handleTouchStart. rewrite Hd. simpl. auto 10.
  - unfold Canvas.handleTouchMove. rewrite Hd.
    destruct (Canvas.currentPath (Canvas.rendered m)); simpl; auto 10.
  - unfold Canvas.handleTouchEnd. rewrite Hd.
    destruct (Canvas.currentPath (Canvas.rendered m)); simpl; auto 10.
  - unfold Canvas.handleUndo. simpl. auto 10.
  - unfold Canvas.handleClear. simpl. auto 10.
Qed.

Lemma run_style {coord : Type} (cp : option Player)
    (steps : list (Canvas.Step coord)) (c c0 : string) (b b0 : Z) :
  forall m : Canvas.Mounted coord,
  Canvas.selectedColor (Canvas.state m) = c ->
  Canvas.selectedBrush (Canvas.state m) = b ->
  (Canvas.selectedColor (Canvas.rendered m) = c0
   /\ Canvas.selectedBrush (Canvas.rendered m) = b0)
  \/ (Canvas.selectedColor (Canvas.rendered m) = c
      /\ Canvas.selectedBrush (Canvas.rendered m) = b) ->
  Canvas.selectedColor (Canvas.state (fst (Canvas.run cp steps m))) = c
  /\ Canvas.selectedBrush (Canvas.state (fst (Canvas.run cp steps m))) = b
  /\ Forall (fun e => (Canvas.ev_color e = c0 /\ Canvas.ev_brushSize e = b0)
                      \/ (Canvas.ev_color e = c /\ Canvas.ev_brushSize e = b))
            (snd (Canvas.run cp steps m)).
Proof.
  induction steps as [|s rest IH]; intros m Hc Hb Hr; [simpl; auto|].
  rewrite run_cons. cbn [fst snd].
  destruct (step_style cp s m) as [S1 [S2 [S3 S4]]].
  destruct (IH (fst (Canvas.step cp s m))) as [I1 [I2 I3]].
  - congruence.
  - congruence.
  - destruct S3 as [[Sc Sb] | [Sc Sb]].
    + destruct Hr as [[Rc Rb] | [Rc Rb]]; [left | right]; split; congruence.
    + right. split; congruence.
  - split; [exact I1|]. split; [exact I2|]. apply Forall_app. split; [|exact I3].
    eapply Forall_impl; [|exact S4]. cbv beta. intros e [Ec Eb].
    destruct Hr as [[Rc Rb] | [Rc Rb]]; [left | right]; split; congruence.
Qed.

(** Every drawing event sent carries a colour and a brush size that are
    selected: those of the last render before the run or, once the screen
    has been rendered again, those of the state; and no canvas gesture
    changes the selection.  So on a screen whose last render shows the
    selection of the state (the pickers are presses, rendered at once)
    every event of every sequence of gestures and renders carries the
    colour and brush size selected. *)
Theorem events_carry_selected_style {coord : Type} (cp : option Player)
    (steps : list (Canvas.Step coord)) (m : Canvas.Mounted coord) :
  Canvas.selectedColor (Canvas.state (fst (Canvas.run cp steps m)))
    = Canvas.selectedColor (Canvas.state m)
  /\ Canvas.selectedBrush (Canvas.state (fst (Canvas.run cp steps m)))
     = Canvas.selectedBrush (Canvas.state m)
  /\ Forall (fun e =>
               (Canvas.ev_color e = Canvas.selectedColor (Canvas.rendered m)
                /\ Canvas.ev_brushSize e
                   = Canvas.selectedBrush (Canvas.rendered m))
               \/ (Canvas.ev_color e = Canvas.selectedColor (Canvas.state m)
                   /\ Canvas.ev_brushSize e
                      = Canvas.selectedBrush (Canvas.state m)))
            (snd (Canvas.run cp steps m))
  /\ (Canvas.selectedColor (Canvas.rendered m)
        = Canvas.selectedColor (Canvas.state m) ->
      Canvas.selectedBrush (Canvas.rendered m)
        = Canvas.selectedBrush (Canvas.state m) ->
      Forall (fun e => Canvas.ev_color e = Canvas.selectedColor (Canvas.state m)
                       /\ Canvas.ev_brushSize e
                          = Canvas.selectedBrush (Canvas.state m))
             (snd (Canvas.run cp steps m))).
Proof.
  destruct (run_style cp steps _ _ _ _ m eq_refl eq_refl
              (or_introl (conj eq_refl eq_refl))) as [H1 [H2 H3]].
  split; [exact H1|]. split; [exact H2|]. split; [exact H3|].
  intros Hc Hb. eapply Forall_impl; [|exact H3]. cbv beta.
  intros e [[Ec Eb] | [Ec Eb]]; split; congruence.
Qed.

Lemma events_carry_selected_style_witness :
  Forall (fun e => Canvas.ev_color e = "#000000"%string
                   /\ Canvas.ev_brushSize e = 8)
         (snd (Canvas.run (Some Sample.ann_drawing) Sample.late_stroke
                 Sample.blank_screen)).
Proof.
  apply (proj2 (proj2 (proj2
           (events_carry_selected_style (Some Sample.ann_drawing)
              Sample.late_stroke Sample.blank_screen))) eq_refl eq_refl).
Defined.

Lemma rendered_points_prefix {coord : Type}
    (moves : list (Canvas.Point coord * Z * bool)) :
  forall all shown : list (Canvas.Point coord),
  let acc := fold_left
               (fun (a : list (Canvas.Point coord) * list (Canvas.Point coord))
                    (mv : Canvas.Point coord * Z * bool) =>
                  let al := fst a ++ [fst (fst mv)] in
                  (al, if snd mv then al else snd a))
               moves (all, shown) in
  fst acc = all ++ map (fun mv => fst (fst mv)) moves
  /\ ((exists k, shown = firstn k all) -> exists k, snd acc = firstn k (fst acc))
  /\ (forallb (fun mv => snd mv) moves = true -> shown = all -> snd acc = fst acc).
Proof.
  induction moves as [|[[p t] b] rest IH]; intros all shown; cbn [fold_left].
  - cbn [fst snd map]. rewrite app_nil_r. repeat split; auto.
  - cbn [fst snd].
    destruct (IH (all ++ [p]) (if b then all ++ [p] else shown))
      as [I1 [I2 I3]].
    cbv zeta in I1, I2, I3. cbn [map fst].
    split; [|split].
    + rewrite I1, <- app_assoc. reflexivity.
    + intros [k Hk]. apply I2. destruct b.
      * exists (List.length (all ++ [p])). now rewrite firstn_all.
      * exists (Nat.min k (List.length all)). rewrite Hk.
        rewrite firstn_app.
        replace (Nat.min k (List.length all) - List.length all)%nat
          with 0%nat by lia.
        simpl. rewrite app_nil_r.
        destruct (Nat.le_ge_cases k (List.length all)) as [Hle|Hge].
        -- now rewrite Nat.min_l.
        -- rewrite Nat.min_r by exact Hge.
           now rewrite !firstn_all2 by lia.
    + intros Hall Heq. cbn [forallb snd] in Hall.
      apply andb_true_iff in Hall. destruct Hall as [Hb Hrest]. subst b.
      now apply I3.
Qed.

(** The stroke the drawer's gesture appends to [localPaths] has the
    touch-down time stamp as its id and the colour and brush size shown
    at the touch down; its points are the touch-down point followed by the
    moves up to the last one that was rendered before the release: always a
    front part of the moves made, and all of them when every move was
    rendered. *)
Theorem stroke_recorded_with_style {coord : Type} (cp : option Player)
    (p0 : Canvas.Point coord) (t0 : Z)
    (moves : list (Canvas.Point coord * Z * bool)) (tend : Z)
    (m : Canvas.Mounted coord) :
  Canvas.isDrawing cp = true ->
  Canvas.localPaths
    (Canvas.state
       (fst (Canvas.run cp (Canvas.stroke_steps p0 t0 moves tend) m)))
  = Canvas.localPaths (Canvas.state m)
    ++ [ {| Canvas.path_id := t0;
            Canvas.points := p0 :: Canvas.rendered_moves moves;
            Canvas.color := Canvas.selectedColor (Canvas.rendered m);
            Canvas.brushSize := Canvas.selectedBrush (Canvas.rendered m) |} ]
  /\ (exists k, Canvas.rendered_moves moves
                = firstn k (map (fun mv => fst (fst mv)) moves))
  /\ (forallb (fun mv => snd mv) moves = true ->
      Canvas.rendered_moves moves = map (fun mv => fst (fst mv)) moves).
Proof.
  intros Hd.
  destruct (stroke_recorded_as_rendered cp p0 t0 moves tend m Hd) as [H1 _].
  destruct (rendered_points_prefix moves [] []) as [P1 [P2 P3]].
  cbv zeta in P1, P2, P3. simpl in P1.
  split; [exact H1|]. unfold Canvas.rendered_moves. split.
  - destruct P2 as [k Hk]; [exists 0%nat; reflexivity|].
    exists k. rewrite <- P1. exact Hk.
  - intros Hall. rewrite <- P1. now apply P3.
Qed.

Lemma stroke_recorded_with_style_witness :
  Canvas.localPaths
    (Canvas.state
       (fst (Canvas.run (Some Sample.ann_drawing) Sample.late_stroke
               Sample.blank_screen)))
  = [ {| Canvas.path_id := 100;
         Canvas.points := [Sample.pt 10 20; Sample.pt 11 22];
         Canvas.color := "#000000"; Canvas.brushSize := 8 |} ].
Proof.
  apply (stroke_recorded_with_style (Some Sample.ann_drawing) (Sample.pt 10 20)
           100 [(Sample.pt 11 22, 116, true); (Sample.pt 13 25, 132, false)]
           150 Sample.blank_screen eq_refl).
Defined.

(** ** Chat, continued *)

Lemma trimStart_fixed s : Chat.trimStart (Chat.trimStart s) = Chat.trimStart s.
Proof.
  destruct (trimStart_head s) as [H | [c [r [H W]]]]; rewrite H; simpl;
    [reflexivity | now rewrite W].
Qed.

Lemma trimStart_trim s : Chat.trimStart (Chat.trim s) = Chat.trim s.
Proof.
  unfold Chat.trim.
  destruct (trimStart_head s) as [H | [c [r [H W]]]]; rewrite H;
    [reflexivity|].
  destruct (trimEnd_head c r W) as [r' Hr]. rewrite Hr. simpl. now rewrite W.
Qed.

(** What [handleSendChat] sends: nothing for an input that is empty or all
    white space (any of the white space and line terminator code units
    that [trim] strips), which is left in the box; otherwise exactly one
    text, which is not empty, has no white space at either end (both trims
    leave it as it is), and the box is emptied.  Sending the sent text
    again would send the same text. *)
Theorem sent_chat_is_trimmed (chatInput : Chat.jsstring) :
  (Chat.trim chatInput = [] ->
     Chat.handleSendChat chatInput = (chatInput, []))
  /\ (Chat.trim chatInput <> [] ->
      exists t,
        Chat.handleSendChat chatInput = ([], [t])
        /\ t <> []
        /\ Chat.trimStart t = t
        /\ Chat.trimEnd t = t
        /\ snd (Chat.handleSendChat t) = [t]).
Proof.
  unfold Chat.handleSendChat. split.
  - intros H. now rewrite H.
  - intros H. exists (Chat.trim chatInput).
    assert (Hne : Chat.is_empty (Chat.trim chatInput) = false).
    { destruct (Chat.trim chatInput); [now destruct H | reflexivity]. }
    rewrite trim_idempotent, Hne.
    split; [reflexivity|]. split; [exact H|].
    split; [apply trimStart_trim|].
    split; [unfold Chat.trim; apply trimEnd_idempotent | reflexivity].
Qed.

Lemma sent_chat_is_trimmed_witness :
  Chat.handleSendChat [32; 12288; 160; 9]%N = ([32; 12288; 160; 9]%N, [])
  /\ exists t,
       Chat.handleSendChat ([12288%N] ++ Chat.units "cat" ++ [160%N])
       = ([], [t])
       /\ t <> [].
Proof.
  split.
  - apply (proj1 (sent_chat_is_trimmed [32; 12288; 160; 9]%N)). reflexivity.
  - destruct (proj2 (sent_chat_is_trimmed
                       ([12288%N] ++ Chat.units "cat" ++ [160%N])))
      as [t [H1 [H2 _]]].
    + vm_compute. discriminate.
    + exists t. now split.
Defined.

(** Only the guessing side can chat: a press on Send does something only
    for a current player who is on a team other than the drawing one; the
    drawer's own team, a player without a team and a client without a
    player send nothing and keep their input. *)
Theorem chat_only_from_guessing_team (r : Room) (cp : option Player)
    (chatInput : Chat.jsstring) :
  (Chat.isGuessingTeam r cp = true
     <-> exists p t, cp = Some p /\ team p = Some t
                     /\ drawing_team r <> Some t)
  /\ (Chat.isGuessingTeam r cp = true ->
      Chat.submit_chat r cp chatInput = Chat.handleSendChat chatInput)
  /\ (Chat.isGuessingTeam r cp = false ->
      Chat.submit_chat r cp chatInput = (chatInput, []))
  /\ (forall p t, cp = Some p -> team p = Some t -> drawing_team r = Some t ->
      Chat.submit_chat r cp chatInput = (chatInput, [])).
Proof.
  assert (Hiff : Chat.isGuessingTeam r cp = true
                 <-> exists p t, cp = Some p /\ team p = Some t
                                 /\ drawing_team r <> Some t).
  { unfold Chat.isGuessingTeam. split.
    - destruct cp as [p|]; [|discriminate].
      destruct (team p) as [t|] eqn:Et; [|discriminate].
      intros H. exists p, t. repeat split; auto.
      destruct (drawing_team r) as [d|]; [|discriminate].
      intros Hd. injection Hd as ->. destruct t; discriminate H.
    - intros [p [t [-> [Ht Hd]]]]. rewrite Ht.
      destruct (drawing_team r) as [d|]; [|reflexivity].
      destruct t, d; try reflexivity; now destruct Hd. }
  split; [exact Hiff|]. unfold Chat.submit_chat.
  split; [intros H; now rewrite H|].
  split; [intros H; now rewrite H|].
  intros p t Hp Ht Hd.
  pose proof (proj1 Hiff) as Hto.
  destruct (Chat.isGuessingTeam r cp); [|reflexivity].
  destruct (Hto eq_refl) as [p' [t' [Hp' [Ht' Hd']]]].
  congruence.
Qed.

(** ** What the game screen shows *)

Lemma two_digits_below_60 (k : nat) :
  (k < 60)%nat ->
  GameView.padStart2 (GameView.toString (Z.of_nat k))
  = String (ascii_of_nat (48 + k / 10))
      (String (ascii_of_nat (48 + k mod 10)) EmptyString).
Proof.
  intros H.
  do 60 (destruct k as [|k]; [vm_compute; reflexivity|]).
  lia.
Qed.

(** For a time that is not negative, [formatTime] shows the whole minutes,
    a colon, and the seconds within the minute as exactly two decimal
    digits, padded with a zero below ten. *)
Theorem formatTime_minutes_and_two_digits (seconds : Z) :
  0 <= seconds ->
  GameView.formatTime seconds
  = (GameView.toString (seconds / 60) ++ ":"
     ++ String (ascii_of_nat (48 + Z.to_nat ((seconds mod 60) / 10)))
          (String (ascii_of_nat (48 + Z.to_nat ((seconds mod 60) mod 10)))
             EmptyString))%string.
Proof.
  intros H. unfold GameView.formatTime.
  rewrite Z.rem_mod_nonneg by lia.
  pose proof (Z.mod_pos_bound seconds 60 ltac:(lia)) as Hm.
  assert (Hk : seconds mod 60 = Z.of_nat (Z.to_nat (seconds mod 60)))
    by (rewrite Z2Nat.id; lia).
  assert (Hlt : (Z.to_nat (seconds mod 60) < 60)%nat) by lia.
  revert Hk Hlt. generalize (Z.to_nat (seconds mod 60)). intros k -> Hlt.
  rewrite (two_digits_below_60 k Hlt).
  change 10 with (Z.of_nat 10).
  rewrite <- Nat2Z.inj_div, <- Nat2Z.inj_mod, !Nat2Z.id. reflexivity.
Qed.

Lemma formatTime_minutes_and_two_digits_witness :
  GameView.formatTime 75 = "1:15"%string
  /\ GameView.formatTime 5 = "0:05"%string.
Proof.
  split.
  - etransitivity;
      [apply (formatTime_minutes_and_two_digits 75); lia | reflexivity].
  - etransitivity;
      [apply (formatTime_minutes_and_two_digits 5); lia | reflexivity].
Defined.




(** On words of the ASCII range.  A player who is not drawing is never
    shown the word itself: a guesser's status bar holds the hint and
    nothing else of the word, and a watcher's holds the drawer's name (or
    [Someone]) whatever the word is; so two words with the same hint give
    the same status bar.  The drawer is shown the word in upper case, and
    [???] while there is no word. *)
Theorem word_shown_to_drawer_only (toUpperCase : string -> string) (r : Room)
    (ps : list Player) (cp : option Player) (w1 w2 : option string) :
  GameView.upper_basic_latin toUpperCase ->
  (opt_flag is_drawing cp = false ->
     (Chat.isGuessingTeam r cp = true ->
        GameView.statusBar toUpperCase r ps cp w1
        = GameView.GuessHint (GameView.getWordHint w1))
     /\ (Chat.isGuessingTeam r cp = false ->
         GameView.statusBar toUpperCase r ps cp w1
         = GameView.Watching
             (GameView.or_else
                (match GameView.currentDrawer ps with
                 | Some p => name p
                 | None => EmptyString
                 end) "Someone")
         /\ GameView.statusBar toUpperCase r ps cp w1
            = GameView.statusBar toUpperCase r ps cp w2)
     /\ (forall shown,
           GameView.statusBar toUpperCase r ps cp w1 <> GameView.DrawWord shown)
     /\ (GameView.getWordHint w1 = GameView.getWordHint w2 ->
         GameView.statusBar toUpperCase r ps cp w1
         = GameView.statusBar toUpperCase r ps cp w2))
  /\ (opt_flag is_drawing cp = true ->
      (forall c rest, w1 = Some (String c rest) ->
         GameView.ascii_word (String c rest) = true ->
         GameView.statusBar toUpperCase r ps cp w1
         = GameView.DrawWord (GameView.upper_word (String c rest)))
      /\ (w1 = None ->
          GameView.statusBar toUpperCase r ps cp w1 = GameView.DrawWord "???")).
Proof.
  intros Hup. unfold GameView.statusBar. split.
  - intros H. rewrite H. split; [|split; [|split]].
    + intros Hg. now rewrite Hg.
    + intros Hg. rewrite Hg. now split.
    + intros shown. destruct (Chat.isGuessingTeam r cp); discriminate.
    + intros Hh. destruct (Chat.isGuessingTeam r cp); [|reflexivity].
      now rewrite Hh.
  - intros H. rewrite H. split.
    + intros c rest -> Ha. rewrite (Hup _ Ha). reflexivity.
    + intros ->. reflexivity.
Qed.

Lemma word_shown_to_drawer_only_witness :
  GameView.statusBar GameView.upper_word Sample.room60
    [Sample.ann_drawing; Sample.bob] (Some Sample.bob) (Some "Elephant"%string)
  = GameView.statusBar GameView.upper_word Sample.room60
      [Sample.ann_drawing; Sample.bob] (Some Sample.bob)
      (Some "everyone"%string)
  /\ GameView.statusBar GameView.upper_word Sample.room60
       [Sample.ann_drawing; Sample.bob] (Some Sample.ann_drawing)
       (Some "Elephant"%string)
     = GameView.DrawWord "ELEPHANT".
Proof.
  assert (Hup : GameView.upper_basic_latin GameView.upper_word)
    by (intros w _; reflexivity).
  pose proof (word_shown_to_drawer_only GameView.upper_word Sample.room60
                [Sample.ann_drawing; Sample.bob] (Some Sample.bob)
                (Some "Elephant"%string) (Some "everyone"%string) Hup)
    as [Hb _].
  pose proof (word_shown_to_drawer_only GameView.upper_word Sample.room60
                [Sample.ann_drawing; Sample.bob] (Some Sample.ann_drawing)
                (Some "Elephant"%string) None Hup) as [_ Ha].
  split.
  - apply (Hb eq_refl). reflexivity.
  - apply (proj1 (Ha eq_refl) "E"%char "lephant"%string eq_refl eq_refl).
Defined.

Lemma team_eqb_eq a b : GameView.team_eqb a b = true <-> a = b.
Proof.
  destruct a as [[]|], b as [[]|]; simpl; split; congruence.
Qed.

(** The tag-team buttons offer exactly the other players of the current
    player's team, and only to a drawer in a room that allows tag team:
    nobody can tag themselves, a player of the other team, or anybody when
    the setting is off. *)
Theorem tag_targets_are_own_teammates (r : Room) (ps : list Player)
    (cp : option Player) (p : Player) :
  In p (GameView.tagTargets r ps cp)
  <-> In p ps
      /\ allow_tag_team (settings r) = true
      /\ exists c, cp = Some c /\ is_drawing c = true
                   /\ team p = team c /\ id p <> id c.
Proof.
  unfold GameView.tagTargets, GameView.teammates, GameView.is_teammate.
  destruct cp as [c|]; simpl.
  - destruct (is_drawing c) eqn:Hd, (allow_tag_team (settings r)) eqn:Ha; simpl.
    + rewrite filter_In, andb_true_iff, team_eqb_eq, negb_true_iff,
        String.eqb_neq.
      split.
      * intros [Hin [Ht Hi]]. repeat split; auto. exists c. auto.
      * intros [Hin [_ [c' [Hc [_ [Ht Hi]]]]]]. injection Hc as <-. auto.
    + split; [intros []|]. intros [_ [H _]]. discriminate.
    + split; [intros []|]. intros [_ [_ [c' [Hc [H _]]]]].
      injection Hc as <-. congruence.
    + split; [intros []|]. intros [_ [H _]]. discriminate.
  - split; [intros []|]. intros [_ [_ [c [H _]]]]. discriminate.
Qed.

(** ** The local game, continued *)

Lemma spread_numeric l :
  forallb LocalRounds.is_num l = true -> LocalGame.spread l = l.
Proof.
  induction l as [|v r IH]; [reflexivity|]. simpl. intros H.
  apply andb_true_iff in H. destruct H as [Hv Hr].
  rewrite (IH Hr). now destruct v.
Qed.

Lemma numeric_nth l : forall i,
  forallb LocalRounds.is_num l = true -> (i < List.length l)%nat ->
  exists n, nth_error l i = Some (LocalGame.num n).
Proof.
  induction l as [|v r IH]; intros i H Hi; simpl in Hi; [lia|].
  simpl in H. apply andb_true_iff in H. destruct H as [Hv Hr].
  destruct i as [|k]; simpl.
  - destruct v; try discriminate. eauto.
  - apply IH; [exact Hr | lia].
Qed.

Lemma total_replace_at l : forall i n,
  nth_error l i = Some (LocalGame.num n) ->
  LocalRounds.total (LocalGame.replace_at l i (LocalGame.num (n + 1)))
  = LocalRounds.total l + 1.
Proof.
  induction l as [|v r IH]; intros i n H; [destruct i; discriminate|].
  destruct i as [|k]; simpl in *.
  - injection H as ->. lia.
  - rewrite (IH k n H). destruct v; lia.
Qed.

Lemma numeric_replace_at l : forall i m,
  forallb LocalRounds.is_num l = true ->
  forallb LocalRounds.is_num (LocalGame.replace_at l i (LocalGame.num m)) = true.
Proof.
  induction l as [|v r IH]; intros i m H; [reflexivity|].
  simpl in H. apply andb_true_iff in H. destruct H as [Hv Hr].
  destruct i as [|k]; simpl.
  - exact Hr.
  - rewrite Hv. now apply IH.
Qed.

Lemma guess_in_step (g : LocalGame.Game) :
  LocalRounds.in_step g ->
  exists n,
    nth_error (LocalGame.scores g) (LocalGame.currentTeam g)
      = Some (LocalGame.num n)
    /\ LocalGame.scores (LocalGame.handleGuessCorrect g)
       = LocalGame.replace_at (LocalGame.scores g) (LocalGame.currentTeam g)
           (LocalGame.num (n + 1)).
Proof.
  intros [Hlen [Hlt Hnum]].
  destruct (numeric_nth (LocalGame.scores g) (LocalGame.currentTeam g) Hnum)
    as [n Hn]; [lia|].
  exists n. split; [exact Hn|].
  unfold LocalGame.handleGuessCorrect. simpl.
  rewrite (spread_numeric _ Hnum). unfold LocalGame.array_set, LocalGame.array_get.
  rewrite Hn.
  assert (E : (LocalGame.currentTeam g <? List.length (LocalGame.scores g))%nat
              = true) by (apply Nat.ltb_lt; lia).
  now rewrite E.
Qed.

Lemma count_of_bounds c : (2 <= LocalGame.count_of c <= 4)%nat.
Proof. destruct c; simpl; lia. Qed.

(** One round from the menu: start, then "Got It!" or skip. *)
Lemma one_round (w : string) (o : LocalRounds.Outcome) (g : LocalGame.Game) :
  LocalGame.gameState g = LocalGame.st_menu ->
  LocalRounds.in_step g ->
  let g' := LocalGame.press (LocalRounds.outcome_press o)
              (LocalGame.press (LocalGame.StartRound w) g) in
  LocalGame.gameState g' = LocalGame.st_menu
  /\ LocalRounds.in_step g'
  /\ LocalGame.settings g' = LocalGame.settings g
  /\ LocalGame.currentTeam g'
     = ((LocalGame.currentTeam g + 1)
        mod LocalGame.count_of (LocalGame.teamCount (LocalGame.settings g)))%nat
  /\ LocalGame.roundNumber g' = LocalGame.roundNumber g + 1
  /\ LocalRounds.total (LocalGame.scores g')
     = LocalRounds.total (LocalGame.scores g)
       + match o with LocalRounds.guessed => 1 | LocalRounds.skipped => 0 end.
Proof.
  intros Hm Hstep g'.
  assert (Hstart : LocalGame.press (LocalGame.StartRound w) g
                   = LocalGame.startRound w g).
  { unfold LocalGame.press. now rewrite Hm. }
  assert (Hstep1 : LocalRounds.in_step (LocalGame.startRound w g)) by exact Hstep.
  pose proof (count_of_bounds (LocalGame.teamCount (LocalGame.settings g))) as Hc.
  unfold g'. rewrite Hstart. destruct o; simpl LocalRounds.outcome_press.
  - change (LocalGame.press LocalGame.GotIt (LocalGame.startRound w g))
      with (LocalGame.handleGuessCorrect (LocalGame.startRound w g)).
    destruct (guess_in_step _ Hstep1) as [n [Hn Hs]].
    destruct Hstep as [Hlen [Hlt Hnum]].
    repeat split; try reflexivity.
    + rewrite Hs, length_replace_at. exact Hlen.
    + simpl. apply Nat.mod_upper_bound. lia.
    + rewrite Hs. now apply numeric_replace_at.
    + rewrite Hs. simpl LocalGame.scores at 2.
      apply (total_replace_at _ _ n Hn).
  - change (LocalGame.press LocalGame.Skip (LocalGame.startRound w g))
      with (LocalGame.handleSkip (LocalGame.startRound w g)).
    destruct Hstep as [Hlen [Hlt Hnum]].
    repeat split; try reflexivity; simpl; auto.
    + apply Nat.mod_upper_bound. lia.
    + lia.
Qed.

(** Rounds played one after the other on a score board that is in step
    with the settings: the turn moves on by one team per round and wraps
    around, the round number counts the rounds, the score total grows by
    one per guessed round and by nothing per skipped one, and the board
    stays in step.  After as many rounds as there are teams the turn is
    back where it was. *)
Theorem rounds_rotate_and_score (rs : list (string * LocalRounds.Outcome))
    (g : LocalGame.Game) :
  LocalGame.gameState g = LocalGame.st_menu ->
  LocalRounds.in_step g ->
  let g' := LocalGame.play (LocalRounds.rounds rs) g in
  let teams := LocalGame.count_of (LocalGame.teamCount (LocalGame.settings g)) in
  LocalGame.gameState g' = LocalGame.st_menu
  /\ LocalRounds.in_step g'
  /\ LocalGame.currentTeam g'
     = ((LocalGame.currentTeam g + List.length rs) mod teams)%nat
  /\ LocalGame.roundNumber g'
     = LocalGame.roundNumber g + Z.of_nat (List.length rs)
  /\ LocalRounds.total (LocalGame.scores g')
     = LocalRounds.total (LocalGame.scores g) + LocalRounds.guessed_count rs
  /\ (List.length rs = teams ->
      LocalGame.currentTeam g' = LocalGame.currentTeam g).
Proof.
  intros Hm Hstep g' teams.
  assert (Hmain :
    LocalGame.gameState g' = LocalGame.st_menu
    /\ LocalRounds.in_step g'
    /\ LocalGame.settings g' = LocalGame.settings g
    /\ LocalGame.currentTeam g'
       = ((LocalGame.currentTeam g + List.length rs) mod teams)%nat
    /\ LocalGame.roundNumber g'
       = LocalGame.roundNumber g + Z.of_nat (List.length rs)
    /\ LocalRounds.total (LocalGame.scores g')
       = LocalRounds.total (LocalGame.scores g) + LocalRounds.guessed_count rs).
  { unfold g', teams. clear g' teams. revert g Hm Hstep.
    induction rs as [|[w o] rest IH]; intros g Hm Hstep.
    - simpl. unfold LocalRounds.guessed_count. simpl.
      split; [exact Hm|]. split; [exact Hstep|]. split; [reflexivity|].
      destruct Hstep as [Hlen [Hlt Hnum]].
      split; [|split; lia].
      rewrite Nat.add_0_r. symmetry. now apply Nat.mod_small.
    - destruct (one_round w o g Hm Hstep) as [H1 [H2 [H3 [H4 [H5 H6]]]]].
      change (LocalGame.play (LocalRounds.rounds ((w, o) :: rest)) g)
        with (LocalGame.play (LocalRounds.rounds rest)
                (LocalGame.press (LocalRounds.outcome_press o)
                   (LocalGame.press (LocalGame.StartRound w) g))).
      destruct (IH _ H1 H2) as [I1 [I2 [I3 [I4 [I5 I6]]]]].
      rewrite H3 in I3, I4.
      split; [exact I1|]. split; [exact I2|]. split; [now rewrite I3|].
      split; [|split].
      + rewrite I4, H4, Nat.Div0.add_mod_idemp_l. f_equal. simpl. lia.
      + rewrite I5, H5. simpl List.length. lia.
      + rewrite I6, H6. unfold LocalRounds.guessed_count. simpl.
        destruct o; simpl List.length; lia. }
  destruct Hmain as [M1 [M2 [M3 [M4 [M5 M6]]]]].
  split; [exact M1|]. split; [exact M2|]. split; [exact M4|].
  split; [exact M5|]. split; [exact M6|].
  intros Hl. rewrite M4, Hl.
  destruct Hstep as [_ [Hlt _]]. fold teams in Hlt.
  rewrite <- (Nat.mul_1_l teams) at 1.
  rewrite Nat.Div0.mod_add. now apply Nat.mod_small.
Qed.

Lemma rounds_rotate_and_score_witness :
  LocalGame.currentTeam
    (LocalGame.play
       (LocalRounds.rounds [("cat"%string, LocalRounds.guessed);
                            ("dog"%string, LocalRounds.skipped);
                            ("sun"%string, LocalRounds.guessed)])
       LocalGame.initial) = 1%nat
  /\ LocalRounds.total
       (LocalGame.scores
          (LocalGame.play
             (LocalRounds.rounds [("cat"%string, LocalRounds.guessed);
                                  ("dog"%string, LocalRounds.skipped);
                                  ("sun"%string, LocalRounds.guessed)])
             LocalGame.initial)) = 2.
Proof.
  assert (Hstep : LocalRounds.in_step LocalGame.initial).
  { unfold LocalRounds.in_step. simpl. repeat split; lia. }
  pose proof (rounds_rotate_and_score
                [("cat"%string, LocalRounds.guessed);
                 ("dog"%string, LocalRounds.skipped);
                 ("sun"%string, LocalRounds.guessed)]
                LocalGame.initial eq_refl Hstep) as H.
  cbv zeta in H. destruct H as [_ [_ [H3 [_ [H5 _]]]]]. split.
  - etransitivity; [exact H3 | reflexivity].
  - etransitivity; [exact H5 | reflexivity].
Defined.

Lemma press_keeps_team_index (p : LocalGame.Press) (g : LocalGame.Game) :
  (LocalGame.currentTeam g < 4)%nat /\ 1 <= LocalGame.roundNumber g ->
  (LocalGame.currentTeam (LocalGame.press p g) < 4)%nat
  /\ 1 <= LocalGame.roundNumber (LocalGame.press p g).
Proof.
  intros [Hc Hr].
  pose proof (count_of_bounds (LocalGame.teamCount (LocalGame.settings g))) as Hn.
  assert (Hmod : ((LocalGame.currentTeam g + 1)
                  mod LocalGame.count_of
                        (LocalGame.teamCount (LocalGame.settings g)) < 4)%nat).
  { pose proof (Nat.mod_upper_bound (LocalGame.currentTeam g + 1)
                  (LocalGame.count_of
                     (LocalGame.teamCount (LocalGame.settings g)))). lia. }
  unfold LocalGame.press.
  destruct (LocalGame.gameState g), p;
    try (split; assumption);
    try (simpl; split; [exact Hmod | lia]);
    try (simpl; split; lia);
    try (simpl; split; assumption).
  all: unfold LocalGame.handleTouchEnd;
    destruct (LocalGame.renderedPath g); (split; [exact Hc | exact Hr]).
Qed.

Lemma fill0_numeric n :
  forallb LocalRounds.is_num (repeat (LocalGame.num 0) n) = true.
Proof. induction n as [|k IH]; [reflexivity | exact IH]. Qed.

(** Whatever is pressed, in whatever order, from the start of the app: the
    drawing team's index stays below 4, the number of team names and team
    colours, and the round number stays at 1 or above.  A new game puts
    the score board back in step with the settings from any state. *)
Theorem team_index_always_named (ps : list LocalGame.Press)
    (g : LocalGame.Game) :
  (LocalGame.currentTeam (LocalGame.play ps LocalGame.initial) < 4)%nat
  /\ 1 <= LocalGame.roundNumber (LocalGame.play ps LocalGame.initial)
  /\ LocalRounds.in_step (LocalGame.resetGame g).
Proof.
  assert (Hinv : forall qs s,
             (LocalGame.currentTeam s < 4)%nat /\ 1 <= LocalGame.roundNumber s ->
             (LocalGame.currentTeam (LocalGame.play qs s) < 4)%nat
             /\ 1 <= LocalGame.roundNumber (LocalGame.play qs s)).
  { induction qs as [|q rest IH]; intros s Hs; [exact Hs|].
    unfold LocalGame.play. simpl. apply IH. now apply press_keeps_team_index. }
  destruct (Hinv ps LocalGame.initial) as [H1 H2]; [simpl; lia|].
  split; [exact H1|]. split; [exact H2|].
  unfold LocalRounds.in_step, LocalGame.resetGame, LocalGame.fill0. simpl.
  pose proof (count_of_bounds (LocalGame.teamCount (LocalGame.settings g))).
  split; [apply repeat_length|]. split; [lia|]. apply fill0_numeric.
Qed.

Lemma local_drags (moves : list (string * string * bool)) : forall g,
  LocalGame.gameState g = LocalGame.st_drawing ->
  let g' := LocalGame.play
              (flat_map (fun m : string * string * bool =>
                           LocalGame.TouchDrag (fst (fst m)) (snd (fst m))
                           :: (if snd m then [LocalGame.Repaint] else []))
                        moves) g in
  LocalGame.gameState g' = LocalGame.st_drawing
  /\ LocalGame.paths g' = LocalGame.paths g
  /\ LocalGame.selectedColor g' = LocalGame.selectedColor g
  /\ LocalGame.brushSize g' = LocalGame.brushSize g
  /\ (LocalGame.currentPath g', LocalGame.renderedPath g')
     = fold_left (fun (acc : string * string) (m : string * string * bool) =>
                    let all := (fst acc ++ " L" ++ fst (fst m) ++ ","
                                ++ snd (fst m))%string in
                    (all, if snd m then all else snd acc))
                 moves (LocalGame.currentPath g, LocalGame.renderedPath g).
Proof.
  induction moves as [|[[sx sy] b] rest IH]; intros g Hd; [simpl; auto|].
  unfold LocalGame.play in *. cbn [flat_map fold_left app fst snd].
  assert (Hp : LocalGame.press (LocalGame.TouchDrag sx sy) g
               = LocalGame.handleTouchMove sx sy g).
  { unfold LocalGame.press. now rewrite Hd. }
  rewrite Hp. destruct b; cbn [app fold_left].
  - assert (Hq : LocalGame.press LocalGame.Repaint
                   (LocalGame.handleTouchMove sx sy g)
                 = LocalGame.repaint (LocalGame.handleTouchMove sx sy g)).
    { unfold LocalGame.press. simpl. now rewrite Hd. }
    rewrite Hq.
    destruct (IH (LocalGame.repaint (LocalGame.handleTouchMove sx sy g)) Hd)
      as [H1 [H2 [H3 [H4 H5]]]].
    repeat split; assumption.
  - destruct (IH (LocalGame.handleTouchMove sx sy g) Hd)
      as [H1 [H2 [H3 [H4 H5]]]].
    repeat split; assumption.
Qed.

Lemma append_nonempty (a b : string) : a <> EmptyString -> (a ++ b)%string <> EmptyString.
Proof. destruct a; [congruence | discriminate]. Qed.

Lemma stroke_path_nonempty p0 moves :
  LocalRounds.stroke_path p0 moves <> EmptyString.
Proof.
  unfold LocalRounds.stroke_path.
  assert (H : ("M" ++ fst p0 ++ "," ++ snd p0)%string <> EmptyString)
    by discriminate.
  revert H. generalize ("M" ++ fst p0 ++ "," ++ snd p0)%string.
  induction moves as [|m rest IH]; intros acc H; simpl; [exact H|].
  apply IH. now apply append_nonempty.
Qed.

Lemma stroke_paths_prefix (p0 : string * string)
    (moves : list (string * string * bool)) :
  fst (LocalRounds.stroke_paths p0 moves)
  = LocalRounds.stroke_path p0 (map fst moves)
  /\ exists k,
       (k <= List.length moves)%nat
       /\ snd (LocalRounds.stroke_paths p0 moves)
          = LocalRounds.stroke_path p0 (firstn k (map fst moves))
       /\ (forallb snd moves = true -> k = List.length moves).
Proof.
  induction moves as [|[[sx sy] b] rest IH] using rev_ind.
  - split; [reflexivity|]. exists 0%nat. repeat split; auto.
  - destruct IH as [I1 [k [Hk [I2 I3]]]].
    unfold LocalRounds.stroke_paths, LocalRounds.stroke_path in *.
    rewrite fold_left_app, map_app, fold_left_app. cbn [fold_left map fst snd].
    split; [now rewrite I1|].
    destruct b.
    + exists (List.length (rest ++ [(sx, sy, true)])).
      split; [lia|]. split; [|reflexivity].
      rewrite <- (length_map fst (rest ++ [(sx, sy, true)])), map_app.
      rewrite firstn_all, fold_left_app. cbn [fold_left map fst snd].
      now rewrite I1.
    + exists k. rewrite length_app. split; [simpl; lia|]. split.
      * rewrite firstn_app, length_map.
        replace (k - List.length rest)%nat with 0%nat by lia.
        cbn [firstn]. rewrite app_nil_r. exact I2.
      * rewrite forallb_app. cbn [forallb snd].
        rewrite andb_false_r. discriminate.
Qed.

(** A stroke on the local canvas is recorded as one new path at the end of
    the list, with the colour and width selected; the paths before it are
    untouched and no stroke is left open.  Its data are those the screen
    showed at the release: they spell the touch-down point after [M] and
    then the drag points after [L], in the order of the touches, up to the
    last move that was rendered before the release; every drag point when
    every move was rendered. *)
Theorem local_stroke_recorded (p0 : string * string)
    (moves : list (string * string * bool)) (g : LocalGame.Game) :
  LocalGame.gameState g = LocalGame.st_drawing ->
  let g' := LocalGame.play (LocalRounds.stroke p0 moves) g in
  LocalGame.paths g'
  = LocalGame.paths g
    ++ [ {| LocalGame.d := snd (LocalRounds.stroke_paths p0 moves);
            LocalGame.color := LocalGame.selectedColor g;
            LocalGame.strokeWidth := LocalGame.brushSize g |} ]
  /\ LocalGame.currentPath g' = EmptyString
  /\ LocalGame.gameState g' = LocalGame.st_drawing
  /\ (exists k,
        (k <= List.length moves)%nat
        /\ snd (LocalRounds.stroke_paths p0 moves)
           = LocalRounds.stroke_path p0 (firstn k (map fst moves)))
  /\ (forallb snd moves = true ->
      snd (LocalRounds.stroke_paths p0 moves)
      = LocalRounds.stroke_path p0 (map fst moves)).
Proof.
  intros Hd g'.
  destruct (stroke_paths_prefix p0 moves) as [_ [k [Hk [Hsnd Hall]]]].
  assert (Hrec : LocalGame.paths g'
                 = LocalGame.paths g
                   ++ [ {| LocalGame.d := snd (LocalRounds.stroke_paths p0 moves);
                           LocalGame.color := LocalGame.selectedColor g;
                           LocalGame.strokeWidth := LocalGame.brushSize g |} ]
                 /\ LocalGame.currentPath g' = EmptyString
                 /\ LocalGame.gameState g' = LocalGame.st_drawing).
  { unfold g', LocalRounds.stroke, LocalGame.play.
    cbn [fold_left]. rewrite fold_left_app. cbn [fold_left].
    assert (Hp : LocalGame.press (LocalGame.TouchDown (fst p0) (snd p0)) g
                 = LocalGame.handleTouchStart (fst p0) (snd p0) g).
    { unfold LocalGame.press. now rewrite Hd. }
    rewrite Hp.
    destruct (local_drags moves
                (LocalGame.handleTouchStart (fst p0) (snd p0) g) Hd)
      as [H1 [H2 [H3 [H4 H5]]]].
    unfold LocalGame.play in *.
    set (g1 := fold_left (fun acc p => LocalGame.press p acc)
                 (flat_map (fun m : string * string * bool =>
                              LocalGame.TouchDrag (fst (fst m)) (snd (fst m))
                              :: (if snd m then [LocalGame.Repaint] else []))
                           moves)
                 (LocalGame.handleTouchStart (fst p0) (snd p0) g)) in *.
    assert (Hcur : LocalGame.renderedPath g1
                   = snd (LocalRounds.stroke_paths p0 moves))
      by exact (f_equal snd H5).
    unfold LocalGame.press. rewrite H1. unfold LocalGame.handleTouchEnd.
    pose proof (stroke_path_nonempty p0 (firstn k (map fst moves))) as Hne.
    rewrite <- Hsnd in Hne. rewrite Hcur.
    destruct (snd (LocalRounds.stroke_paths p0 moves)) as [|c r];
      [now destruct Hne|].
    simpl. rewrite H2, H3, H4. simpl. now repeat split. }
  destruct Hrec as [R1 [R2 R3]].
  split; [exact R1|]. split; [exact R2|]. split; [exact R3|]. split.
  - exists k. now split.
  - intros Hf. rewrite Hsnd, (Hall Hf), <- (length_map fst moves).
    now rewrite firstn_all.
Qed.

Lemma local_stroke_recorded_witness :
  LocalGame.paths
    (LocalGame.play
       (LocalRounds.stroke ("10"%string, "20"%string)
          [("11"%string, "22"%string, true); ("13"%string, "25"%string, false)])
       Sample.first_round)
  = [ {| LocalGame.d := "M10,20 L11,22"; LocalGame.color := "#000000";
         LocalGame.strokeWidth := 4 |} ].
Proof.
  apply (local_stroke_recorded ("10"%string, "20"%string)
           [("11"%string, "22"%string, true); ("13"%string, "25"%string, false)]
           Sample.first_round eq_refl).
Defined.

Lemma ticks_counting (k : nat) : forall g,
  LocalGame.gameState g = LocalGame.st_drawing ->
  Z.of_nat k < LocalGame.timeLeft g ->
  let g' := LocalRounds.ticks k g in
  LocalGame.gameState g' = LocalGame.st_drawing
  /\ LocalGame.timeLeft g' = LocalGame.timeLeft g - Z.of_nat k
  /\ LocalGame.scores g' = LocalGame.scores g
  /\ LocalGame.currentTeam g' = LocalGame.currentTeam g
  /\ LocalGame.roundNumber g' = LocalGame.roundNumber g.
Proof.
  induction k as [|k IH]; intros g Hd Hk.
  - simpl. repeat split; auto. lia.
  - cbn [LocalRounds.ticks].
    assert (E : (LocalGame.timeLeft g <=? 1) = false) by (apply Z.leb_gt; lia).
    assert (Ht : LocalGame.gameState (LocalRounds.tick g) = LocalGame.st_drawing
                 /\ LocalGame.timeLeft (LocalRounds.tick g)
                    = LocalGame.timeLeft g - 1
                 /\ LocalGame.scores (LocalRounds.tick g) = LocalGame.scores g
                 /\ LocalGame.currentTeam (LocalRounds.tick g)
                    = LocalGame.currentTeam g
                 /\ LocalGame.roundNumber (LocalRounds.tick g)
                    = LocalGame.roundNumber g).
    { unfold LocalRounds.tick. rewrite Hd, E. simpl. now repeat split. }
    destruct Ht as [T1 [T2 [T3 [T4 T5]]]].
    destruct (IH (LocalRounds.tick g) T1) as [I1 [I2 [I3 [I4 I5]]]]; [lia|].
    split; [exact I1|]. split; [lia|].
    split; [congruence|]. split; congruence.
Qed.

Lemma ticks_after_reveal (j : nat) : forall g,
  LocalGame.gameState g = LocalGame.st_reveal -> LocalRounds.ticks j g = g.
Proof.
  induction j as [|j IH]; intros g H; [reflexivity|].
  cbn [LocalRounds.ticks]. unfold LocalRounds.tick. rewrite H. now apply IH.
Qed.

(** The clock of a local round: started with a time limit of [T >= 1]
    seconds, the round is still on the drawing screen with [T - k] seconds
    left after [k < T] ticks, turns to the reveal screen with 0 seconds
    left at tick [T], and later ticks change nothing.  The clock never
    touches the scores, the turn or the round number. *)
Theorem local_round_lasts_time_limit (w : string) (g : LocalGame.Game)
    (k j : nat) :
  1 <= LocalGame.timeLimit (LocalGame.settings g) ->
  let T := LocalGame.timeLimit (LocalGame.settings g) in
  let g1 := LocalGame.startRound w g in
  (Z.of_nat k < T ->
     LocalGame.gameState (LocalRounds.ticks k g1) = LocalGame.st_drawing
     /\ LocalGame.timeLeft (LocalRounds.ticks k g1) = T - Z.of_nat k)
  /\ LocalGame.gameState (LocalRounds.ticks (Z.to_nat T) g1) = LocalGame.st_reveal
  /\ LocalGame.timeLeft (LocalRounds.ticks (Z.to_nat T) g1) = 0
  /\ LocalRounds.ticks (Z.to_nat T + j) g1 = LocalRounds.ticks (Z.to_nat T) g1
  /\ LocalGame.scores (LocalRounds.ticks (Z.to_nat T + j) g1) = LocalGame.scores g
  /\ LocalGame.currentTeam (LocalRounds.ticks (Z.to_nat T + j) g1)
     = LocalGame.currentTeam g
  /\ LocalGame.roundNumber (LocalRounds.ticks (Z.to_nat T + j) g1)
     = LocalGame.roundNumber g.
Proof.
  intros HT T g1.
  assert (Hd : LocalGame.gameState g1 = LocalGame.st_drawing) by reflexivity.
  assert (Hl : LocalGame.timeLeft g1 = T) by reflexivity.
  assert (Hsplit : forall a b s, LocalRounds.ticks (a + b) s
                                 = LocalRounds.ticks b (LocalRounds.ticks a s)).
  { induction a as [|a IH]; intros b s; [reflexivity|]. simpl. apply IH. }
  destruct (ticks_counting (Z.to_nat (T - 1)) g1 Hd) as [L1 [L2 [L3 [L4 L5]]]];
    [rewrite Hl; lia|].
  set (g2 := LocalRounds.ticks (Z.to_nat (T - 1)) g1) in *.
  assert (Hlast : LocalRounds.ticks (Z.to_nat T) g1 = LocalGame.time_up g2).
  { replace (Z.to_nat T) with (Z.to_nat (T - 1) + 1)%nat by lia.
    rewrite Hsplit. fold g2. simpl. unfold LocalRounds.tick. rewrite L1.
    assert (E : (LocalGame.timeLeft g2 <=? 1) = true)
      by (apply Z.leb_le; rewrite L2, Hl; lia).
    now rewrite E. }
  assert (Hstay : LocalRounds.ticks (Z.to_nat T + j) g1
                  = LocalRounds.ticks (Z.to_nat T) g1).
  { rewrite Hsplit, Hlast. now apply ticks_after_reveal. }
  split.
  - intros Hk. destruct (ticks_counting k g1 Hd) as [K1 [K2 _]];
      [rewrite Hl; exact Hk|]. split; [exact K1|]. now rewrite K2, Hl.
  - rewrite Hstay, Hlast. simpl. repeat split; auto.
Qed.

Lemma local_round_lasts_time_limit_witness :
  LocalGame.gameState (LocalRounds.ticks 59 Sample.first_round)
    = LocalGame.st_drawing
  /\ LocalGame.gameState (LocalRounds.ticks 60 Sample.first_round)
     = LocalGame.st_reveal.
Proof.
  pose proof (local_round_lasts_time_limit "cat" LocalGame.initial 59 0) as H.
  destruct H as [H1 [H2 _]]; [simpl; lia|]. split.
  - apply H1. simpl. lia.
  - exact H2.
Defined.

(** ** The round timer: what happens when the room does not change *)

Lemma run_ticks_add (a : nat) : forall b r cp st,
  Timer.run_ticks (a + b) r cp st
  = (fst (Timer.run_ticks b r cp (fst (Timer.run_ticks a r cp st))),
     snd (Timer.run_ticks a r cp st)
     ++ snd (Timer.run_ticks b r cp (fst (Timer.run_ticks a r cp st)))).
Proof.
  induction a as [|a IH]; intros b r cp st.
  - simpl. now destruct (Timer.run_ticks b r cp st).
  - cbn [Nat.add Timer.run_ticks].
    destruct (Timer.interval_tick r cp st) as [s1 c1].
    rewrite (IH b r cp s1).
    destruct (Timer.run_ticks a r cp s1) as [s2 c2]. simpl.
    now rewrite app_assoc.
Qed.

Lemma one_full_countdown r cp :
  1 <= timer_seconds (settings r) ->
  Timer.run_ticks (Z.to_nat (timer_seconds (settings r))) r cp
    {| Timer.timeRemaining := timer_seconds (settings r);
       Timer.timerRef := true |}
  = ({| Timer.timeRemaining := timer_seconds (settings r);
        Timer.timerRef := true |},
     if opt_flag is_host cp then [Timer.endRound] else []).
Proof.
  intros HD. set (D := timer_seconds (settings r)) in *.
  replace (Z.to_nat D) with (Z.to_nat (D - 1) + 1)%nat by lia.
  rewrite run_ticks_add, run_ticks_quiet by lia. cbn [fst snd app].
  replace (D - Z.of_nat (Z.to_nat (D - 1))) with 1 by lia.
  cbn [Timer.run_ticks]. unfold Timer.interval_tick, Timer.tick_update.
  cbn [Timer.timerRef Timer.timeRemaining]. change (1 <=? 1) with true.
  cbv iota. fold D. cbn [fst snd]. now rewrite app_nil_r.
Qed.

(** As long as the effect is not run again (the room record the host sees
    does not change), the interval keeps going: after the countdown has
    been reset to the duration [D >= 1], every further [D] ticks end in
    one more [endRound] from the host, so [m] full countdowns submit [m]
    of them. *)
Theorem round_end_repeats_every_duration (r : Room) (cp : option Player)
    (m : nat) :
  1 <= timer_seconds (settings r) ->
  Timer.run_ticks (m * Z.to_nat (timer_seconds (settings r))) r cp
    {| Timer.timeRemaining := timer_seconds (settings r);
       Timer.timerRef := true |}
  = ({| Timer.timeRemaining := timer_seconds (settings r);
        Timer.timerRef := true |},
     if opt_flag is_host cp then repeat Timer.endRound m else []).
Proof.
  intros HD. induction m as [|m IH].
  - simpl. now destruct (opt_flag is_host cp).
  - cbn [Nat.mul]. rewrite run_ticks_add, (one_full_countdown r cp HD).
    cbn [fst snd]. rewrite IH. cbn [fst snd].
    destruct (opt_flag is_host cp); reflexivity.
Qed.

Lemma round_end_repeats_every_duration_witness :
  snd (Timer.run_ticks 180 Sample.room60 (Some Sample.ann)
         {| Timer.timeRemaining := 60; Timer.timerRef := true |})
  = [Timer.endRound; Timer.endRound; Timer.endRound].
Proof.
  assert (HD : 1 <= timer_seconds (settings Sample.room60)) by (simpl; lia).
  exact (f_equal snd
           (round_end_repeats_every_duration Sample.room60 (Some Sample.ann)
              3 HD)).
Defined.

Lemma handleGuessCorrect_in_range_witness :
  nth_error (LocalGame.scores (LocalGame.handleGuessCorrect Sample.first_round))
    0%nat = Some (LocalGame.num 1)
  /\ LocalGame.currentTeam (LocalGame.handleGuessCorrect Sample.first_round)
     = 1%nat.
Proof.
  destruct (handleGuessCorrect_in_range Sample.first_round 0 eq_refl)
    as [H1 [_ [_ [H4 _]]]].
  split; [exact H1 | exact H4].
Defined.
